(** * The chain RPC notification client of fnowallet (package chain, rpcclient.go)

    A shallow embedding of [RPCClient]: its lifecycle ([Start], [Stop]), the
    callbacks that translate server notifications into events, and the two
    dispatch loops ([handler], [handlerVoting]) that queue the events and hand
    them to the consumer, one at a time, over an unbuffered channel.

    Goroutines are modelled by interleaving: every [select] case that fires is
    one atomic step of a transition function over the state all goroutines
    share; a schedule (a list of steps) is one possible execution. *)

From Stdlib Require Import ZArith List String Bool Lia.
From stdpp Require Import base option list gmap strings sorting.

Local Open Scope Z_scope.

(** ** Channels and timers *)

(** The state of a channel that is only ever closed (never sent on), or of an
    unbuffered channel as far as [close] is concerned. *)
Inductive chan := Open | Closed.

(** [close(ch)]: closing a closed channel is a run-time panic ([None]). *)
Definition close (ch : chan) : option chan :=
  match ch with
  | Open => Some Closed
  | Closed => None
  end.

(** Durations and instants are counted in nanoseconds, as time.Duration is. *)
Definition Second : Z := 1000000000.
Definition Minute : Z := 60 * Second.

(** The channel returned by [time.After(d)]: it delivers once, at the instant
    it is armed for; once read it blocks for ever. *)
Inductive timerChan := Armed (at_ : Z) | Spent.

(** [time.After(d)] called at instant [now]. *)
Definition After (now d : Z) : timerChan := Armed (now + d).

(** ** Semantic versions *)

Record semver := mkSemver { major : N; minor : N; patch : N }.

Definition requiredChainServerAPI : semver :=
  {| major := 5; minor := 0; patch := 0 |}.

(** Ordering of versions, most significant component first. *)
Definition semver_le (a b : semver) : bool :=
  if (major a <? major b)%N then true
  else if (major b <? major a)%N then false
  else if (minor a <? minor b)%N then true
  else if (minor b <? minor a)%N then false
  else (patch a <=? patch b)%N.

(** Modelled from the spec: [semverCompatible] is called by [Start] but is
    declared in another file of package chain.  The specification gives it as:
    same major version, and the server's advertised version is at least the
    required minimum. *)
Definition semverCompatible (required actual : semver) : bool :=
  (major required =? major actual)%N && semver_le required actual.

(** One entry of the map returned by the [Version] request. *)
Record VersionResult := mkVersionResult { Major : N; Minor : N; Patch : N }.

(** ** The client *)

(** The requests this file makes on the embedded [*fnorpcclient.Client]. *)
Inductive Call :=
| CallConnect | CallGetCurrentNet | CallVersion | CallSession
| CallDisconnect | CallShutdown.

(** The fields of [RPCClient] that change, with the state of the channel
    objects they point to.  [Client] is the log of the requests made on the
    embedded client, oldest first.  The two intake channels
    ([enqueueNotification], [enqueueVotingNotification]) are unbuffered and
    never closed by this file, so they carry no state. *)
Record RPCClient := mkRPCClient {
  Client : list Call;
  chainParams_Net : N;
  dequeueNotification : chan;
  dequeueVotingNotification : chan;
  quit : chan;
  wg : nat;
  started : bool;
}.

Definition call (r : Call) (c : RPCClient) : RPCClient :=
  mkRPCClient (Client c ++ [r]) (chainParams_Net c) (dequeueNotification c)
    (dequeueVotingNotification c) (quit c) (wg c) (started c).

Definition set_quit (q : chan) (c : RPCClient) : RPCClient :=
  mkRPCClient (Client c) (chainParams_Net c) (dequeueNotification c)
    (dequeueVotingNotification c) q (wg c) (started c).

Definition set_dequeueNotification (d : chan) (c : RPCClient) : RPCClient :=
  mkRPCClient (Client c) (chainParams_Net c) d
    (dequeueVotingNotification c) (quit c) (wg c) (started c).

Definition set_dequeueVotingNotification (d : chan) (c : RPCClient) : RPCClient :=
  mkRPCClient (Client c) (chainParams_Net c) (dequeueNotification c)
    d (quit c) (wg c) (started c).

Definition set_wg (n : nat) (c : RPCClient) : RPCClient :=
  mkRPCClient (Client c) (chainParams_Net c) (dequeueNotification c)
    (dequeueVotingNotification c) (quit c) n (started c).

Definition set_started (b : bool) (c : RPCClient) : RPCClient :=
  mkRPCClient (Client c) (chainParams_Net c) (dequeueNotification c)
    (dequeueVotingNotification c) (quit c) (wg c) b.

(** [NewRPCClientConfig]: every channel is made open, nothing is started. *)
Definition NewRPCClientConfig (net : N) : RPCClient :=
  mkRPCClient [] net Open Open Open 0 false.

(** [c.wg.Done()]: a negative counter is a run-time panic. *)
Definition wgDone (c : RPCClient) : option RPCClient :=
  match wg c with
  | O => None
  | S n => Some (set_wg n c)
  end.

(** [Stop].  The mutex makes the body atomic.  [None] is a run-time panic. *)
Definition Stop (c : RPCClient) : option RPCClient :=
  match quit c with
  | Closed => Some c
  | Open =>
      let c := set_quit Closed c in
      let c := call CallShutdown c in
      if negb (started c) then
        d ← close (dequeueNotification c);
        let c := set_dequeueNotification d c in
        v ← close (dequeueVotingNotification c);
        Some (set_dequeueVotingNotification v c)
      else Some c
  end.

(** The goroutines [Start] launches. *)
Inductive Goroutine := go_handler | go_handlerVoting.

(** The error kinds this file uses. *)
Inductive Kind := IO.

(** The two streams, named after what they carry. *)
Inductive Queue := General | Voting.

(** The outcome of one iteration of a loop. *)
Inductive iter (L : Type) :=
| Continue (s : L)      (* the loop goes round again *)
| BreakOut              (* break out *)
| NotReady              (* the case cannot fire in this state *)
| Panics.               (* a run-time panic *)
Arguments Continue {L} s.
Arguments BreakOut {L}.
Arguments NotReady {L}.
Arguments Panics {L}.

(** A goroutine running a loop with locals of type [L]. *)
Inductive goroutine (L : Type) :=
| Running (s : L)
| Exited.
Arguments Running {L} s.
Arguments Exited {L}.

(** The goroutine that waits for the answer of a liveness probe (the second
    [go func] of the [pingChan] case). *)
Inductive watcher :=
| Waiting (timeout : timerChan)   (* in its select, on the answer and on time.After *)
| Resetting (ch : timerChan).     (* sending ch on pingChanReset *)

Section Chain.

(** [Hash] is chainhash.Hash, an array of bytes, which can key a map;
    [MsgTx] is wire.MsgTx; [Deserialize] is the Deserialize method of
    wire.MsgTx, [None] when it returns an error; [RPCErr] is the type of the
    errors the RPC client returns. *)
Context {Hash : Type}.
Context {MsgTx : Type}.
Context (Deserialize : list Byte.byte → option MsgTx).
Context {RPCErr : Type}.
Context {HashEqDec : EqDecision Hash} {HashCountable : Countable Hash}.

(** *** Errors *)

(** Errors as this file builds them: [E op kind err] is [errors.E] applied to
    an operation, possibly a kind, and a cause. *)
Inductive Error :=
| Cause (e : RPCErr)
| Message (msg : string)
| IncompatibleAPI (advertised required : semver)
| E (op : string) (kind : option Kind) (err : Error).

(** *** What the server answers *)

Inductive reply (A : Type) :=
| Reply (a : A)
| Fail (e : RPCErr).
Arguments Reply {A} a.
Arguments Fail {A} e.

Record Server := mkServer {
  Connect : option RPCErr;
  GetCurrentNet : reply N;
  Version : reply (gmap string VersionResult);
}.

(** *** Start *)

Definition op : string := "rpcclient.Start".

(** The deferred function of [Start]: disconnect when an error is returned. *)
Definition deferred (r : option Error * RPCClient * list Goroutine)
  : option Error * RPCClient * list Goroutine :=
  match r with
  | (Some err, c, gs) => (Some err, call CallDisconnect c, gs)
  | (None, _, _) => r
  end.

Definition zeroVersionResult : VersionResult := mkVersionResult 0 0 0.

Definition Start (srv : Server) (c : RPCClient)
  : option Error * RPCClient * list Goroutine :=
  let c := call CallConnect c in
  match Connect srv with
  | Some err => (Some (E op (Some IO) (Cause err)), c, [])
  | None =>
    deferred
      (let c := call CallGetCurrentNet c in
       match GetCurrentNet srv with
       | Fail err =>
           (Some (E op None (E "fnod.jsonrpc.getcurrentnet" None (Cause err))), c, [])
       | Reply net =>
           if negb (net =? chainParams_Net c)%N then
             (Some (E op None (Message "mismatched networks")), c, [])
           else
             let c := call CallVersion c in
             let serverAPI :=
               match Version srv with
               | Reply versions =>
                   let versionResult :=
                     default zeroVersionResult (versions !! "fnodjsonrpcapi"%string) in
                   {| major := Major versionResult;
                      minor := Minor versionResult;
                      patch := Patch versionResult |}
               | Fail _ => mkSemver 0 0 0
               end in
             if negb (semverCompatible requiredChainServerAPI serverAPI) then
               (Some (E op None (IncompatibleAPI serverAPI requiredChainServerAPI)), c, [])
             else
               let c := set_started true c in
               let c := set_wg (wg c + 2) c in
               (None, c, [go_handler; go_handlerVoting])
       end)
  end.

(** *** Notification types *)

(** A [*chainhash.Hash]: [None] is the nil pointer. *)
Definition HashPtr : Type := option Hash.

Inductive Event :=
| blockConnected (blockHeader : list Byte.byte) (transactions : list (list Byte.byte))
| blockDisconnected (blockHeader : list Byte.byte)
| relevantTxAccepted (transaction : MsgTx)
| reorganization (oldHash : HashPtr) (oldHeight : Z) (newHash : HashPtr) (newHeight : Z)
| winningTickets (blockHash : HashPtr) (blockHeight : Z) (tickets : list HashPtr)
| missedTickets (blockHash : HashPtr) (blockHeight : Z) (tickets : list HashPtr)
| stakeDifficulty (blockHash : HashPtr) (blockHeight : Z) (stakeDiff : Z).

(** The intake channel a callback sends on: [General] is
    [c.enqueueNotification], [Voting] is [c.enqueueVotingNotification]. *)
Definition Offer : Type := Queue * Event.

(** *** The callbacks

    Each callback ends in a [select] between one send on an intake channel and
    [<-c.quit].  A callback is modelled by the send it attempts; [None] means
    it returns without attempting one.  Which of the two cases of the [select]
    fires is decided by the scheduler (see [step]). *)

Definition onBlockConnected (header : list Byte.byte)
    (transactions : list (list Byte.byte)) : option Offer :=
  Some (General, blockConnected header transactions).

Definition onBlockDisconnected (header : list Byte.byte) : option Offer :=
  Some (General, blockDisconnected header).

Definition onRelevantTxAccepted (transaction : list Byte.byte) : option Offer :=
  match Deserialize transaction with
  | None => None
  | Some msgTx => Some (General, relevantTxAccepted msgTx)
  end.

Definition onReorganization (oldHash : HashPtr) (oldHeight : Z)
    (newHash : HashPtr) (newHeight : Z) : option Offer :=
  Some (General, reorganization oldHash oldHeight newHash newHeight).

Definition onWinningTickets (hash : HashPtr) (height : Z)
    (tickets : list HashPtr) : option Offer :=
  Some (Voting, winningTickets hash height tickets).

(** The loop of [onSpentAndMissedTickets] over the map, given the sequence of
    entries the [range] statement visits (Go leaves the order unspecified). *)
Fixpoint missedOf (visited : list (Hash * bool)) (missed : list HashPtr) : list HashPtr :=
  match visited with
  | [] => missed
  | (ticketHash, spent) :: rest =>
      if negb spent then missedOf rest (missed ++ [Some ticketHash])
      else missedOf rest missed
  end.

Definition onSpentAndMissedTickets (blockHash : HashPtr) (height : Z) (sdiff : Z)
    (tickets : list (Hash * bool)) : option Offer :=
  let missed := missedOf tickets [] in
  if (length missed =? 0)%nat then None
  else Some (General, missedTickets blockHash height missed).

Definition onStakeDifficulty (hash : HashPtr) (height : Z) (stakeDiff : Z)
    : option Offer :=
  Some (General, stakeDifficulty hash height stakeDiff).

(** One invocation of a registered callback by the RPC client, with its
    arguments ([ntfnCallbacks] in [NewRPCClientConfig]). *)
Inductive Notification :=
| OnBlockConnected (header : list Byte.byte) (transactions : list (list Byte.byte))
| OnBlockDisconnected (header : list Byte.byte)
| OnRelevantTxAccepted (transaction : list Byte.byte)
| OnReorganization (oldHash : HashPtr) (oldHeight : Z) (newHash : HashPtr) (newHeight : Z)
| OnWinningTickets (hash : HashPtr) (height : Z) (tickets : list HashPtr)
| OnSpentAndMissedTickets (blockHash : HashPtr) (height : Z) (sdiff : Z)
    (tickets : list (Hash * bool))
| OnStakeDifficulty (hash : HashPtr) (height : Z) (stakeDiff : Z).

Definition callback (n : Notification) : option Offer :=
  match n with
  | OnBlockConnected header transactions => onBlockConnected header transactions
  | OnBlockDisconnected header => onBlockDisconnected header
  | OnRelevantTxAccepted transaction => onRelevantTxAccepted transaction
  | OnReorganization oldHash oldHeight newHash newHeight =>
      onReorganization oldHash oldHeight newHash newHeight
  | OnWinningTickets hash height tickets => onWinningTickets hash height tickets
  | OnSpentAndMissedTickets blockHash height sdiff tickets =>
      onSpentAndMissedTickets blockHash height sdiff tickets
  | OnStakeDifficulty hash height stakeDiff => onStakeDifficulty hash height stakeDiff
  end.

(** *** The dispatch loops *)

(** The locals both loops have.  [enqueue] and [dequeue] are channel
    variables: [false] stands for nil, [true] for the client's channel.
    [next] is an interface value, [None] stands for nil. *)
Record queue := mkQueue {
  notifications : list Event;
  enqueue : bool;
  dequeue : bool;
  next : option Event;
}.

(** The locals of [handler]. *)
Record locals := mkLocals {
  lq : queue;
  pingChan : timerChan;
}.

(** The cases of the two [select] statements, with what the other side of the
    communication supplies. *)
Inductive selectCase :=
| CaseEnqueue (r : option Event)   (* n, ok := <-enqueue; [None] is !ok *)
| CaseDequeue                      (* dequeue <- next *)
| CasePingChan                     (* <-pingChan *)
| CasePingChanReset (ch : timerChan) (* ch := <-pingChanReset *)
| CaseQuit.                        (* <-c.quit *)

(** A value was received from the intake: the body after the [!ok] test. *)
Definition received (n : Event) (s : queue) : queue :=
  let s :=
    if (length (notifications s) =? 0)%nat
    then mkQueue (notifications s) (enqueue s) true (Some n)
    else s in
  mkQueue (notifications s ++ [n]) (enqueue s) (dequeue s) (next s).

(** The intake was found closed. *)
Definition intakeClosed (s : queue) : iter queue :=
  if (length (notifications s) =? 0)%nat then BreakOut
  else Continue (mkQueue (notifications s) false (dequeue s) (next s)).

(** The consumer took [next]: the body of [case dequeue <- next]. *)
Definition sent (s : queue) : iter queue :=
  match notifications s with
  | [] => Panics
  | _ :: notifications' =>
      if negb (length notifications' =? 0)%nat then
        Continue (mkQueue notifications' (enqueue s) (dequeue s) (head notifications'))
      else if negb (enqueue s) then BreakOut
      else Continue (mkQueue notifications' (enqueue s) false (next s))
  end.

(** One iteration of the loop of [handlerVoting], when the given case fires. *)
Definition handlerVoting (quit : chan) (s : queue) (sel : selectCase) : iter queue :=
  match sel with
  | CaseEnqueue r =>
      if enqueue s then
        match r with
        | None => intakeClosed s
        | Some n => Continue (received n s)
        end
      else NotReady
  | CaseDequeue => if dequeue s then sent s else NotReady
  | CaseQuit =>
      match quit with
      | Closed => BreakOut
      | Open => NotReady
      end
  | CasePingChan | CasePingChanReset _ => NotReady
  end.

(** One iteration of the loop of [handler] at instant [now].  When
    [CasePingChan] fires the loop also launches the two probe goroutines
    (see [step]). *)
Definition handler (now : Z) (quit : chan) (s : locals) (sel : selectCase) : iter locals :=
  match sel with
  | CaseEnqueue r =>
      if enqueue (lq s) then
        match r with
        | None =>
            match intakeClosed (lq s) with
            | Continue q => Continue (mkLocals q (pingChan s))
            | BreakOut => BreakOut
            | NotReady => NotReady
            | Panics => Panics
            end
        | Some n => Continue (mkLocals (received n (lq s)) (After now Minute))
        end
      else NotReady
  | CaseDequeue =>
      if dequeue (lq s) then
        match sent (lq s) with
        | Continue q => Continue (mkLocals q (pingChan s))
        | BreakOut => BreakOut
        | NotReady => NotReady
        | Panics => Panics
        end
      else NotReady
  | CasePingChan =>
      match pingChan s with
      | Armed t => if t <=? now then Continue (mkLocals (lq s) Spent) else NotReady
      | Spent => NotReady
      end
  | CasePingChanReset ch => Continue (mkLocals (lq s) ch)
  | CaseQuit =>
      match quit with
      | Closed => BreakOut
      | Open => NotReady
      end
  end.

(** The locals as the loops declare them. *)
Definition queue0 : queue := mkQueue [] true false None.
Definition locals0 (now : Z) : locals := mkLocals queue0 (After now Minute).

(** What [handler] does after its loop. *)
Definition handlerExit (c : RPCClient) : option RPCClient :=
  c ← Stop c;
  d ← close (dequeueNotification c);
  wgDone (set_dequeueNotification d c).

(** What [handlerVoting] does after its loop. *)
Definition handlerVotingExit (c : RPCClient) : option RPCClient :=
  d ← close (dequeueVotingNotification c);
  wgDone (set_dequeueVotingNotification d c).

(** *** The running session

    The goroutines of a started client, and the steps they take together. *)

Record System := mkSystem {
  client : RPCClient;
  hGeneral : goroutine locals;     (* the goroutine running handler *)
  hVoting : goroutine queue;       (* the goroutine running handlerVoting *)
  probes : list watcher;
  clock : Z;
}.

(** The session as [Start] leaves it at instant [now], both loops about to
    enter their [select]. *)
Definition session (c : RPCClient) (now : Z) : System :=
  mkSystem c (Running (locals0 now)) (Running queue0) [] now.

(** The steps of the scheduler. *)
Inductive Action :=
| Notify (n : Notification)      (* a callback runs and the loop receives what it sends *)
| NotifyQuit (n : Notification)  (* a callback runs and leaves through <-c.quit *)
| Consume (q : Queue)            (* the consumer receives from the output channel *)
| CallStop                       (* a caller runs c.Stop() *)
| LoopQuit (q : Queue)           (* a loop takes <-c.quit *)
| Elapse (d : Z)                 (* time passes *)
| PingFire                       (* handler takes <-pingChan *)
| ProbeAnswer (i : nat) (err : option RPCErr)  (* Session() returns to watcher i *)
| ProbeTimeout (i : nat)         (* watcher i takes its time.After case *)
| PingReset (i : nat).           (* handler receives pingChanReset from watcher i *)

(** What can be observed on the channels. *)
Inductive Obs :=
| Accepted (q : Queue) (e : Event)            (* the loop received e on its intake *)
| Delivered (q : Queue) (v : option Event).   (* the consumer received v *)

Inductive Result :=
| Ok (s : System) (o : list Obs)
| Stuck                          (* the step cannot be taken in this state *)
| Crash.                         (* the process panics *)

Definition set_client (c : RPCClient) (s : System) : System :=
  mkSystem c (hGeneral s) (hVoting s) (probes s) (clock s).

Definition set_probes (p : list watcher) (s : System) : System :=
  mkSystem (client s) (hGeneral s) (hVoting s) p (clock s).

(** One iteration of [handler] in the session, then its exit if it breaks out. *)
Definition iterGeneral (s : System) (sel : selectCase) (o : list Obs) : Result :=
  match hGeneral s with
  | Exited => Stuck
  | Running st =>
      match handler (clock s) (quit (client s)) st sel with
      | Continue st' =>
          Ok (mkSystem (client s) (Running st') (hVoting s) (probes s) (clock s)) o
      | BreakOut =>
          match handlerExit (client s) with
          | Some c => Ok (mkSystem c Exited (hVoting s) (probes s) (clock s)) o
          | None => Crash
          end
      | NotReady => Stuck
      | Panics => Crash
      end
  end.

(** One iteration of [handlerVoting] in the session. *)
Definition iterVoting (s : System) (sel : selectCase) (o : list Obs) : Result :=
  match hVoting s with
  | Exited => Stuck
  | Running st =>
      match handlerVoting (quit (client s)) st sel with
      | Continue st' =>
          Ok (mkSystem (client s) (hGeneral s) (Running st') (probes s) (clock s)) o
      | BreakOut =>
          match handlerVotingExit (client s) with
          | Some c => Ok (mkSystem c (hGeneral s) Exited (probes s) (clock s)) o
          | None => Crash
          end
      | NotReady => Stuck
      | Panics => Crash
      end
  end.

Definition step (s : System) (a : Action) : Result :=
  match a with
  | Notify n =>
      match callback n with
      | None => Ok s []
      | Some (General, e) => iterGeneral s (CaseEnqueue (Some e)) [Accepted General e]
      | Some (Voting, e) => iterVoting s (CaseEnqueue (Some e)) [Accepted Voting e]
      end
  | NotifyQuit n =>
      match callback n with
      | None => Ok s []
      | Some _ =>
          match quit (client s) with
          | Closed => Ok s []
          | Open => Stuck
          end
      end
  | Consume General =>
      match hGeneral s with
      | Running st => iterGeneral s CaseDequeue [Delivered General (next (lq st))]
      | Exited => Stuck
      end
  | Consume Voting =>
      match hVoting s with
      | Running st => iterVoting s CaseDequeue [Delivered Voting (next st)]
      | Exited => Stuck
      end
  | CallStop =>
      match Stop (client s) with
      | Some c => Ok (set_client c s) []
      | None => Crash
      end
  | LoopQuit General => iterGeneral s CaseQuit []
  | LoopQuit Voting => iterVoting s CaseQuit []
  | Elapse d =>
      if 0 <=? d
      then Ok (mkSystem (client s) (hGeneral s) (hVoting s) (probes s) (clock s + d)) []
      else Stuck
  | PingFire =>
      match iterGeneral s CasePingChan [] with
      | Ok s' o =>
          Ok (set_probes (probes s' ++ [Waiting (After (clock s) Minute)])
                (set_client (call CallSession (client s')) s')) o
      | r => r
      end
  | ProbeAnswer i err =>
      match probes s !! i with
      | Some (Waiting _) =>
          match (match err with
                 | Some _ => Stop (client s)
                 | None => Some (client s)
                 end) with
          | Some c =>
              Ok (set_probes (<[i := Resetting (After (clock s) Minute)]> (probes s))
                    (set_client c s)) []
          | None => Crash
          end
      | _ => Stuck
      end
  | ProbeTimeout i =>
      match probes s !! i with
      | Some (Waiting (Armed t)) =>
          if t <=? clock s then
            match Stop (client s) with
            | Some c => Ok (set_probes (delete i (probes s)) (set_client c s)) []
            | None => Crash
            end
          else Stuck
      | _ => Stuck
      end
  | PingReset i =>
      match probes s !! i with
      | Some (Resetting ch) =>
          match iterGeneral s (CasePingChanReset ch) [] with
          | Ok s' o => Ok (set_probes (delete i (probes s')) s') o
          | r => r
          end
      | _ => Stuck
      end
  end.

(** A schedule, run from [s]; the observations are collected in order. *)
Fixpoint run (s : System) (acts : list Action) : Result :=
  match acts with
  | [] => Ok s []
  | a :: rest =>
      match step s a with
      | Ok s' o =>
          match run s' rest with
          | Ok s'' o' => Ok s'' (o ++ o')
          | r => r
          end
      | r => r
      end
  end.

(** The events a loop accepted, and the values the consumer received. *)
Fixpoint accepted (q : Queue) (tr : list Obs) : list Event :=
  match tr with
  | [] => []
  | Accepted q' e :: tr' =>
      match q, q' with
      | General, General | Voting, Voting => e :: accepted q tr'
      | _, _ => accepted q tr'
      end
  | Delivered _ _ :: tr' => accepted q tr'
  end.

Fixpoint delivered (q : Queue) (tr : list Obs) : list (option Event) :=
  match tr with
  | [] => []
  | Delivered q' v :: tr' =>
      match q, q' with
      | General, General | Voting, Voting => v :: delivered q tr'
      | _, _ => delivered q tr'
      end
  | Accepted _ _ :: tr' => delivered q tr'
  end.

(** The output channel of a stream. *)
Definition output (q : Queue) (c : RPCClient) : chan :=
  match q with
  | General => dequeueNotification c
  | Voting => dequeueVotingNotification c
  end.

(** The locals of the loop of a stream, while it runs. *)
Definition loop (q : Queue) (s : System) : goroutine queue :=
  match q with
  | General =>
      match hGeneral s with
      | Running st => Running (lq st)
      | Exited => Exited
      end
  | Voting => hVoting s
  end.

(** The events a loop holds. *)
Definition buffered (q : Queue) (s : System) : list Event :=
  match loop q s with
  | Running st => notifications st
  | Exited => []
  end.

Definition isWinningTickets (e : Event) : bool :=
  match e with
  | winningTickets _ _ _ => true
  | _ => false
  end.

(** *** Vocabulary of the properties *)

(** [n] calls of [Stop] in a row ([None]: one of them panicked). *)
Fixpoint Stops (n : nat) (c : RPCClient) : option RPCClient :=
  match n with
  | O => Some c
  | S n' => c' ← Stop c; Stops n' c'
  end.

(** The states in which [Stop] does not panic: if the client is neither
    started nor stopped, its output channels are still open.  (Only [Stop]
    and the loops close them.) *)
Definition closable (c : RPCClient) : Prop :=
  started c = false → quit c = Open →
  dequeueNotification c = Open ∧ dequeueVotingNotification c = Open.

(** The API version advertised in a reply to the [Version] request. *)
Definition advertised (versions : gmap string VersionResult) : semver :=
  let versionResult := default zeroVersionResult (versions !! "fnodjsonrpcapi"%string) in
  mkSemver (Major versionResult) (Minor versionResult) (Patch versionResult).

(** [routed q e]: the event is of a kind stream [q] carries. *)
Definition routed (q : Queue) (e : Event) : Prop :=
  isWinningTickets e = match q with Voting => true | General => false end.

(** The invariant of the locals of a loop in a session: the intake variable
    is never nil (nothing closes the intake channels); the output variable is
    nil exactly when nothing is buffered, and otherwise [next] is the oldest
    buffered event. *)
Definition queue_ok (q : Queue) (s : queue) : Prop :=
  enqueue s = true ∧
  Forall (routed q) (notifications s) ∧
  match notifications s with
  | [] => dequeue s = false
  | n :: _ => dequeue s = true ∧ next s = Some n
  end.

(** The number of loops a goroutine still runs. *)
Definition running {L : Type} (g : goroutine L) : nat :=
  match g with
  | Running _ => 1
  | Exited => 0
  end.

(** The invariant of a session: the client is started, the wait group counts
    at least the loops that run, and a running loop has well-formed locals
    and an open output channel. *)
Definition invariant (s : System) : Prop :=
  started (client s) = true ∧
  (running (hGeneral s) + running (hVoting s) ≤ wg (client s))%nat ∧
  ∀ q st, loop q s = Running st → queue_ok q st ∧ output q (client s) = Open.

(** A client on which [Start] has just succeeded. *)
Definition live (c : RPCClient) : Prop :=
  started c = true ∧ (2 ≤ wg c)%nat ∧
  dequeueNotification c = Open ∧ dequeueVotingNotification c = Open.

(** How one step changes the loop of a stream, with what it lets observe:
    nothing; an event received and appended; the oldest event handed to the
    consumer; or the loop left. *)
Inductive move (q : Queue) (g : goroutine queue) (o : list Obs) (g' : goroutine queue) : Prop :=
| move_none :
    g' = g → accepted q o = [] → delivered q o = [] → move q g o g'
| move_received st e :
    g = Running st → g' = Running (received e st) → routed q e →
    accepted q o = [e] → delivered q o = [] → move q g o g'
| move_sent st st' :
    g = Running st → dequeue st = true → sent st = Continue st' → g' = Running st' →
    accepted q o = [] → delivered q o = [next st] → move q g o g'
| move_exit :
    g' = Exited → accepted q o = [] → delivered q o = [] → move q g o g'.

(** The part of [invariant] that is about the client. *)
Definition client_ok (s : System) : Prop :=
  started (client s) = true ∧
  (running (hGeneral s) + running (hVoting s) ≤ wg (client s))%nat ∧
  ∀ q st, loop q s = Running st → output q (client s) = Open.

(** The events of a goroutine's buffer. *)
Definition held (g : goroutine queue) : list Event :=
  match g with
  | Running st => notifications st
  | Exited => []
  end.

(** A value received by the consumer of stream [q] is an event [q] carries. *)
Definition carried (q : Queue) (v : option Event) : Prop :=
  ∃ e, v = Some e ∧ routed q e.

(** What a schedule did to the loop of a stream: every event it accepted and
    every value it delivered is of the stream's kind; a loop that had left
    stays out and exchanges nothing; and the events held before followed by
    the events accepted are the values delivered followed by the events
    [pending], which are those the loop holds if it still runs. *)
Definition effect (q : Queue) (g : goroutine queue) (o : list Obs)
    (g' : goroutine queue) : Prop :=
  Forall (routed q) (accepted q o) ∧
  Forall (carried q) (delivered q o) ∧
  (g = Exited → g' = Exited ∧ accepted q o = [] ∧ delivered q o = []) ∧
  ∃ pending,
    Some <$> (held g ++ accepted q o) = delivered q o ++ (Some <$> pending) ∧
    ∀ st', g' = Running st' → pending = notifications st'.

(** The claim that no accepted event is dropped: whatever a session has done,
    it can go on so that the consumer of a stream has received exactly the
    events the stream accepted. *)
Definition every_accepted_event_is_delivered : Prop :=
  ∀ (c : RPCClient) (now : Z) (acts : list Action) (s : System) (tr : list Obs)
    (q : Queue),
    live c →
    run (session c now) acts = Ok s tr →
    ∃ acts' s' tr',
      run s acts' = Ok s' tr' ∧
      delivered q (tr ++ tr') = Some <$> accepted q (tr ++ tr').

(** The claim that a loop drains its buffer before it closes its output: in
    every execution in which [Stop] is called in state [s1] and the output of
    stream [q] is later found closed, the events held in [s1] were delivered
    first. *)
Definition drains_before_closing : Prop :=
  ∀ (c : RPCClient) (now : Z) (acts1 acts2 : list Action)
    (s1 s2 : System) (tr1 tr2 : list Obs) (q : Queue),
    live c →
    run (session c now) acts1 = Ok s1 tr1 →
    run s1 (CallStop :: acts2) = Ok s2 tr2 →
    output q (client s2) = Closed →
    ∃ rest, delivered q tr2 = (Some <$> buffered q s1) ++ rest.

(** ** Properties of Stop *)

Lemma Stop_closed (c : RPCClient) : quit c = Closed → Stop c = Some c.
Proof. intros Hq. unfold Stop. by rewrite Hq. Qed.

Lemma Stop_quit (c c' : RPCClient) : Stop c = Some c' → quit c' = Closed.
Proof.
  unfold Stop. destruct c as [l net d v q w b]; simpl.
  destruct q; [|by intros [= <-]].
  destruct b; simpl; [by intros [= <-]|].
  destruct d; simpl; [|done]. destruct v; simpl; [|done]. by intros [= <-].
Qed.

Lemma Stop_started (c c' : RPCClient) : Stop c = Some c' → started c' = started c.
Proof.
  unfold Stop. destruct c as [l net d v q w b]; simpl.
  destruct q; [|by intros [= <-]].
  destruct b; simpl; [by intros [= <-]|].
  destruct d; simpl; [|done]. destruct v; simpl; [|done]. by intros [= <-].
Qed.

Lemma Stop_wg (c c' : RPCClient) : Stop c = Some c' → wg c' = wg c.
Proof.
  unfold Stop. destruct c as [l net d v q w b]; simpl.
  destruct q; [|by intros [= <-]].
  destruct b; simpl; [by intros [= <-]|].
  destruct d; simpl; [|done]. destruct v; simpl; [|done]. by intros [= <-].
Qed.

Lemma Stop_started_outputs (c : RPCClient) :
  started c = true →
  ∃ c', Stop c = Some c' ∧
        dequeueNotification c' = dequeueNotification c ∧
        dequeueVotingNotification c' = dequeueVotingNotification c.
Proof.
  intros Hs. unfold Stop. destruct c as [l net d v q w b]; simpl in *. subst b.
  destruct q; simpl; eauto.
Qed.

Lemma Stops_closed (n : nat) (c : RPCClient) : quit c = Closed → Stops n c = Some c.
Proof.
  intros Hq. induction n as [|n IH]; [done|].
  simpl. rewrite (Stop_closed c Hq). simpl. exact IH.
Qed.

(** [closable] holds of a new client and is kept by [Stop]; [Start] keeps it
    too (see [Start_closable] below). *)
Lemma closable_new (net : N) : closable (NewRPCClientConfig net).
Proof. by intros _ _. Qed.

Lemma Stop_closable (c c' : RPCClient) : Stop c = Some c' → closable c'.
Proof. intros Hstop _ Hq. by rewrite (Stop_quit c c' Hstop) in Hq. Qed.

Lemma closable_Stop (c : RPCClient) : closable c → is_Some (Stop c).
Proof.
  unfold closable, Stop. destruct c as [l net d v q w b]; simpl.
  destruct q; [|eauto]. destruct b; simpl; [eauto|].
  intros Hc. destruct Hc as [-> ->]; [done..|]. simpl. eauto.
Qed.

(** ** Properties of Start *)

(** [Start] sets [started] exactly when it returns no error. *)
Lemma Start_started (srv : Server) (c : RPCClient) :
  started (Start srv c).1.2
  = match (Start srv c).1.1 with None => true | Some _ => started c end.
Proof.
  unfold Start, deferred. destruct (Connect srv); [done|].
  destruct (GetCurrentNet srv) as [net|e]; [|done]. simpl.
  destruct (negb (net =? chainParams_Net c)%N); [done|].
  by destruct (negb (semverCompatible _ _)).
Qed.

Lemma Start_closable (srv : Server) (c : RPCClient) :
  closable c → closable (Start srv c).1.2.
Proof.
  unfold closable, Start, deferred. destruct (Connect srv); [done|].
  destruct (GetCurrentNet srv) as [net|e]; [|done]. simpl.
  destruct (negb (net =? chainParams_Net c)%N); [done|].
  by destruct (negb (semverCompatible _ _)).
Qed.

Lemma Start_checks (srv : Server) (c : RPCClient) (serverAPI : semver) :
  Connect srv = None →
  GetCurrentNet srv = Reply (chainParams_Net c) →
  match Version srv with
  | Reply versions => advertised versions
  | Fail _ => mkSemver 0 0 0
  end = serverAPI →
  Start srv c =
    let c := call CallVersion (call CallGetCurrentNet (call CallConnect c)) in
    if semverCompatible requiredChainServerAPI serverAPI
    then (None, set_wg (wg c + 2) (set_started true c), [go_handler; go_handlerVoting])
    else (Some (E op None (IncompatibleAPI serverAPI requiredChainServerAPI)),
          call CallDisconnect c, []).
Proof.
  intros Hc Hn Hv. unfold Start. rewrite Hc, Hn. simpl.
  rewrite N.eqb_refl. simpl. unfold advertised in Hv. rewrite Hv.
  by destruct (semverCompatible requiredChainServerAPI serverAPI).
Qed.

(** ** Properties of the callbacks *)

Lemma missedOf_filter (visited : list (Hash * bool)) (missed : list HashPtr) :
  missedOf visited missed
  = missed ++ ((λ p, Some p.1) <$> filter (λ p, p.2 = false) visited).
Proof.
  revert missed. induction visited as [|[h b] rest IH]; intros missed.
  - simpl. by rewrite app_nil_r.
  - cbn [missedOf]. destruct b; cbn [negb].
    + rewrite IH. by rewrite filter_cons_False by (simpl; congruence).
    + rewrite IH. rewrite filter_cons_True by done. rewrite fmap_cons.
      by rewrite <- app_assoc.
Qed.

Lemma missedOf_elem (tickets : gmap Hash bool) (visited : list (Hash * bool))
    (p : HashPtr) :
  visited ≡ₚ map_to_list tickets →
  p ∈ missedOf visited [] ↔ ∃ h, p = Some h ∧ tickets !! h = Some false.
Proof.
  intros Hperm. rewrite missedOf_filter. simpl. rewrite list_elem_of_fmap. split.
  - intros [[h b] [-> Hin]]. apply list_elem_of_filter in Hin as [Hb Hin].
    simpl in Hb. subst b. exists h. split; [done|].
    rewrite Hperm in Hin. by apply elem_of_map_to_list in Hin.
  - intros [h [-> Hl]]. exists (h, false). split; [done|].
    apply list_elem_of_filter. split; [done|].
    rewrite Hperm. by apply elem_of_map_to_list.
Qed.

Lemma missedOf_NoDup (tickets : gmap Hash bool) (visited : list (Hash * bool)) :
  visited ≡ₚ map_to_list tickets → NoDup (missedOf visited []).
Proof.
  intros Hperm. rewrite missedOf_filter. simpl.
  assert (NoDup visited.*1) as Hnd.
  { rewrite Hperm. apply NoDup_fst_map_to_list. }
  clear Hperm. induction visited as [|[h b] rest IH]; [constructor|].
  simpl in Hnd. apply NoDup_cons in Hnd as [Hnotin Hnd].
  destruct b.
  - rewrite filter_cons_False by (simpl; congruence). by apply IH.
  - rewrite filter_cons_True by done. simpl. apply NoDup_cons. split; [|by apply IH].
    intros Hin. apply list_elem_of_fmap in Hin as [[h' b'] [Heq Hin]].
    simpl in Heq. injection Heq as <-.
    apply list_elem_of_filter in Hin as [_ Hin].
    apply Hnotin. apply list_elem_of_fmap. by exists (h, b').
Qed.

Lemma NoDup_only {A : Type} (l : list A) (a : A) :
  NoDup l → (∀ x, x ∈ l ↔ x = a) → l = [a].
Proof.
  intros Hnd Hel. destruct l as [|x l].
  - exfalso. assert (a ∈ @nil A) as Hin by by apply Hel.
    by apply elem_of_nil in Hin.
  - assert (x = a) as -> by (apply Hel; left).
    apply NoDup_cons in Hnd as [Hnotin _].
    destruct l as [|y l]; [done|]. exfalso.
    assert (y = a) as -> by (apply Hel; right; left).
    apply Hnotin. left.
Qed.

(** ** Properties of the session *)

Lemma callback_routed (n : Notification) (q : Queue) (e : Event) :
  callback n = Some (q, e) → routed q e.
Proof.
  destruct n; simpl; unfold onBlockConnected, onBlockDisconnected,
    onRelevantTxAccepted, onReorganization, onWinningTickets,
    onSpentAndMissedTickets, onStakeDifficulty.
  all: try (intros [= <- <-]; done).
  - destruct (Deserialize transaction); [|done]. by intros [= <- <-].
  - destruct (length _ =? 0)%nat; [done|]. by intros [= <- <-].
Qed.

Lemma received_ok (q : Queue) (n : Event) (s : queue) :
  queue_ok q s → routed q n →
  queue_ok q (received n s) ∧ notifications (received n s) = notifications s ++ [n].
Proof.
  intros (He & Hr & Hd) Hn. unfold received.
  destruct s as [[|m l] enq deq nxt]; simpl in *.
  - split; [|done]. split; [done|]. split; [|done]. by apply Forall_singleton.
  - split; [|done]. split; [done|]. split; [|done].
    apply (Forall_app_2 _ (m :: l) [n]); [done|]. by apply Forall_singleton.
Qed.

Lemma sent_ok (q : Queue) (s : queue) :
  queue_ok q s → dequeue s = true →
  ∃ n s', sent s = Continue s' ∧ notifications s = n :: notifications s' ∧
          next s = Some n ∧ queue_ok q s'.
Proof.
  intros (He & Hr & Hd) Hdq. unfold sent.
  destruct s as [[|m l] enq deq nxt]; simpl in *; [congruence|].
  destruct Hd as [_ ->]. subst enq. apply Forall_cons in Hr as [_ Hr].
  destruct l as [|m' l]; simpl.
  - exists m. eexists. split; [done|]. split; [done|]. split; [done|]. done.
  - exists m. eexists. split; [done|]. split; [done|]. split; [done|].
    split; [done|]. split; [done|]. simpl. by destruct deq.
Qed.

Lemma handlerExit_ok (c : RPCClient) (n : nat) :
  started c = true → dequeueNotification c = Open → wg c = S n →
  ∃ c', handlerExit c = Some c' ∧ started c' = true ∧ wg c' = n ∧
        dequeueNotification c' = Closed ∧
        dequeueVotingNotification c' = dequeueVotingNotification c ∧
        quit c' = Closed.
Proof.
  intros Hs Hd Hw. unfold handlerExit, Stop, wgDone.
  destruct c as [l net d v q w b]; simpl in *. subst.
  destruct q; simpl; eauto 10.
Qed.

Lemma handlerVotingExit_ok (c : RPCClient) (n : nat) :
  dequeueVotingNotification c = Open → wg c = S n →
  ∃ c', handlerVotingExit c = Some c' ∧ started c' = started c ∧ wg c' = n ∧
        dequeueVotingNotification c' = Closed ∧
        dequeueNotification c' = dequeueNotification c ∧
        quit c' = quit c.
Proof.
  intros Hd Hw. unfold handlerVotingExit, wgDone.
  destruct c as [l net d v q w b]; simpl in *. subst. simpl. eauto 10.
Qed.

Lemma session_invariant (c : RPCClient) (now : Z) : live c → invariant (session c now).
Proof.
  intros (Hs & Hw & Hd & Hv). split; [done|]. split; [simpl; lia|].
  intros [] st; simpl; intros [= <-]; split; try done.
  all: split; [done|]; split; [constructor|done].
Qed.

Lemma Stop_started_ok (c : RPCClient) :
  started c = true →
  ∃ c', Stop c = Some c' ∧ started c' = true ∧ wg c' = wg c ∧
        dequeueNotification c' = dequeueNotification c ∧
        dequeueVotingNotification c' = dequeueVotingNotification c ∧
        quit c' = Closed.
Proof.
  intros Hs. destruct (Stop_started_outputs c Hs) as (c' & Hstop & Hd & Hv).
  exists c'. split; [done|]. rewrite (Stop_started _ _ Hstop), (Stop_wg _ _ Hstop).
  split; [done|]. split; [done|]. split; [done|]. split; [done|].
  by apply (Stop_quit c).
Qed.

Ltac unchanged := intros []; simpl; by apply move_none.

Ltac still_ok H :=
  let Ho := fresh "Ho" in
  destruct H as (? & ? & Ho); split; [done|]; split; [done|];
  intros [] ?; simpl; intros;
  first [ done
        | by (eapply (Ho General); simpl; first [reflexivity|eassumption])
        | by (eapply (Ho Voting); simpl; first [reflexivity|eassumption]) ].

Lemma step_moves (s : System) (a : Action) :
  invariant s →
  match step s a with
  | Ok s' o => (∀ q, move q (loop q s) o (loop q s')) ∧ client_ok s'
  | Stuck => True
  | Crash => False
  end.
Proof.
  intros (Hs & Hw & Hq).
  destruct s as [c g v p t]; simpl in *.
  assert (∀ st, g = Running st →
            queue_ok General (lq st) ∧ dequeueNotification c = Open) as HG.
  { intros st ->. by apply (Hq General). }
  assert (∀ st, v = Running st →
            queue_ok Voting st ∧ dequeueVotingNotification c = Open) as HV.
  { intros st ->. by apply (Hq Voting). }
  clear Hq.
  assert (client_ok (mkSystem c g v p t)) as Hsame.
  { split; [done|]. split; [done|]. intros [] st; simpl.
    - destruct g as [st'|]; [|done]. intros _. by destruct (HG st').
    - intros ->. by destruct (HV st). }
  destruct a as [n|n|[]| |[]|d| |i err|i|i]; simpl.
  - (* Notify *)
    destruct (callback n) as [[[] e]|] eqn:Hcb.
    + unfold iterGeneral. simpl. destruct g as [st|]; [|done].
      destruct (HG _ eq_refl) as (Hok & Ho). pose proof Hok as (He & _). rewrite He.
      split.
      * intros []; simpl; [|by apply move_none].
        eapply move_received; try done. by apply (callback_routed n).
      * still_ok Hsame.
    + unfold iterVoting. simpl. destruct v as [st|]; [|done].
      destruct (HV _ eq_refl) as (Hok & Ho). pose proof Hok as (He & _). rewrite He.
      split.
      * intros []; simpl; [by apply move_none|].
        eapply move_received; try done. by apply (callback_routed n).
      * still_ok Hsame.
    + split; [unchanged|done].
  - (* NotifyQuit *)
    destruct (callback n); [destruct (quit c); [done|]|]; (split; [unchanged|done]).
  - (* Consume General *)
    destruct g as [st|]; [|done]. unfold iterGeneral. simpl.
    destruct (dequeue (lq st)) eqn:Hd; [|done].
    destruct (HG _ eq_refl) as (Hok & Ho).
    destruct (sent_ok General (lq st) Hok Hd) as (n & s' & Hsent & Hn & Hnext & Hok').
    rewrite Hsent. split; [|still_ok Hsame].
    intros []; simpl; [|by apply move_none]. by eapply move_sent.
  - (* Consume Voting *)
    destruct v as [st|]; [|done]. unfold iterVoting. simpl.
    destruct (dequeue st) eqn:Hd; [|done].
    destruct (HV _ eq_refl) as (Hok & Ho).
    destruct (sent_ok Voting st Hok Hd) as (n & s' & Hsent & Hn & Hnext & Hok').
    rewrite Hsent. split; [|still_ok Hsame].
    intros []; simpl; [by apply move_none|]. by eapply move_sent.
  - (* CallStop *)
    destruct (Stop_started_ok c Hs) as (c' & -> & Hs' & Hw' & Hd' & Hv' & _).
    split; [unchanged|]. destruct Hsame as (_ & _ & Ho).
    split; [done|]. split; [simpl; by rewrite Hw'|].
    intros [] st Hl; simpl;
      [rewrite Hd'; exact (Ho General _ Hl)|rewrite Hv'; exact (Ho Voting _ Hl)].
  - (* LoopQuit General *)
    unfold iterGeneral. simpl. destruct g as [st|]; [|done].
    destruct (quit c) eqn:Hquit; [done|].
    destruct (HG _ eq_refl) as (_ & Ho).
    destruct (wg c) as [|k] eqn:Hwg; [simpl in Hw; lia|].
    destruct (handlerExit_ok c k Hs Ho Hwg) as (c' & -> & Hs' & Hw' & Hd' & Hv' & _).
    split.
    + intros []; simpl; [by apply move_exit|by apply move_none].
    + split; [done|]. split; [simpl in *; lia|].
      intros [] st'; simpl; [done|]. intros ->. rewrite Hv'. by destruct (HV st').
  - (* LoopQuit Voting *)
    unfold iterVoting. simpl. destruct v as [st|]; [|done].
    destruct (quit c) eqn:Hquit; [done|].
    destruct (HV _ eq_refl) as (_ & Ho).
    destruct (wg c) as [|k] eqn:Hwg; [simpl in Hw; lia|].
    destruct (handlerVotingExit_ok c k Ho Hwg) as (c' & -> & Hs' & Hw' & Hv' & Hd' & _).
    split.
    + intros []; simpl; [by apply move_none|by apply move_exit].
    + split; [simpl; congruence|]. split; [simpl in *; destruct g; simpl in *; lia|].
      intros [] st'; simpl; [|done]. destruct g as [st''|]; [|done].
      intros _. rewrite Hd'. by destruct (HG st'').
  - (* Elapse *)
    destruct (0 <=? d); [|done]. split; [unchanged|done].
  - (* PingFire *)
    unfold iterGeneral. simpl. destruct g as [st|]; [|done].
    destruct (pingChan st) as [t0|]; [|done]. destruct (t0 <=? t); [|done].
    split; [unchanged|]. still_ok Hsame.
  - (* ProbeAnswer *)
    destruct (p !! i) as [[]|]; try done. destruct err as [e|].
    + destruct (Stop_started_ok c Hs) as (c' & -> & Hs' & Hw' & Hd' & Hv' & _).
      split; [unchanged|]. destruct Hsame as (_ & _ & Ho).
      split; [done|]. split; [simpl; by rewrite Hw'|].
      intros [] st Hl; simpl;
      [rewrite Hd'; exact (Ho General _ Hl)|rewrite Hv'; exact (Ho Voting _ Hl)].
    + split; [unchanged|done].
  - (* ProbeTimeout *)
    destruct (p !! i) as [[[t0|]|]|]; try done. destruct (t0 <=? t); [|done].
    destruct (Stop_started_ok c Hs) as (c' & -> & Hs' & Hw' & Hd' & Hv' & _).
    split; [unchanged|]. destruct Hsame as (_ & _ & Ho).
    split; [done|]. split; [simpl; by rewrite Hw'|].
    intros [] st Hl; simpl;
      [rewrite Hd'; exact (Ho General _ Hl)|rewrite Hv'; exact (Ho Voting _ Hl)].
  - (* PingReset *)
    destruct (p !! i) as [[]|]; try done.
    unfold iterGeneral. simpl. destruct g as [st|]; [|done].
    split; [unchanged|still_ok Hsame].
Qed.

Lemma accepted_app (q : Queue) (o o' : list Obs) :
  accepted q (o ++ o') = accepted q o ++ accepted q o'.
Proof.
  induction o as [|[q' e|q' v] o IH]; simpl; [done|..].
  - destruct q, q'; simpl; by rewrite IH.
  - done.
Qed.

Lemma delivered_app (q : Queue) (o o' : list Obs) :
  delivered q (o ++ o') = delivered q o ++ delivered q o'.
Proof.
  induction o as [|[q' e|q' v] o IH]; simpl; [done|..].
  - done.
  - destruct q, q'; simpl; by rewrite IH.
Qed.

Lemma sent_head (q : Queue) (st st' : queue) :
  queue_ok q st → dequeue st = true → sent st = Continue st' →
  queue_ok q st' ∧ ∃ n, notifications st = n :: notifications st' ∧
                        next st = Some n ∧ routed q n.
Proof.
  intros Hok Hd Hsent.
  destruct (sent_ok q st Hok Hd) as (n & s' & Hsent' & Hn & Hnext & Hok').
  rewrite Hsent in Hsent'. injection Hsent' as <-.
  split; [done|]. exists n. split; [done|]. split; [done|].
  destruct Hok as (_ & Hr & _). rewrite Hn in Hr. by apply Forall_cons in Hr as [? _].
Qed.

Lemma move_queue_ok (q : Queue) (g g' : goroutine queue) (o : list Obs) :
  (∀ st, g = Running st → queue_ok q st) → move q g o g' →
  ∀ st', g' = Running st' → queue_ok q st'.
Proof.
  intros Hok [-> _ _|st e -> -> Hr _ _|st st1 -> Hd Hsent -> _ _ | -> _ _] st' Heq.
  - by apply Hok.
  - injection Heq as <-. by apply received_ok; [apply Hok|].
  - injection Heq as <-. by apply (sent_head q st); [apply Hok|..].
  - done.
Qed.

Lemma move_effect (q : Queue) (g g' : goroutine queue) (o : list Obs) :
  (∀ st, g = Running st → queue_ok q st) → move q g o g' → effect q g o g'.
Proof.
  intros Hok [-> Ha Hd|st e -> -> Hr Ha Hd|st st1 -> Hdq Hsent -> Ha Hd | -> Ha Hd];
    unfold effect; rewrite Ha, Hd.
  - split; [constructor|]. split; [constructor|]. split; [done|].
    exists (held g). split; [by rewrite app_nil_r|]. by intros st' ->.
  - split; [by apply Forall_singleton|]. split; [constructor|]. split; [done|].
    exists (notifications st ++ [e]). split; [done|].
    intros st' [= <-]. symmetry. by apply (received_ok q); [apply Hok|].
  - destruct (sent_head q st st1 (Hok _ eq_refl) Hdq Hsent) as (_ & n & Hn & Hnext & Hr).
    split; [constructor|]. split; [apply Forall_singleton; by exists n|]. split; [done|].
    exists (notifications st1). split; [|by intros st' [= <-]].
    simpl. by rewrite app_nil_r, Hn, Hnext.
  - split; [constructor|]. split; [constructor|]. split; [done|].
    exists (held g). split; [by rewrite app_nil_r|]. done.
Qed.

Lemma effect_nil (q : Queue) (g : goroutine queue) : effect q g [] g.
Proof.
  split; [constructor|]. split; [constructor|]. split; [done|].
  exists (held g). split; [by rewrite app_nil_r|]. by intros st' ->.
Qed.

Lemma effect_app (q : Queue) (g g1 g' : goroutine queue) (o o' : list Obs) :
  effect q g o g1 → effect q g1 o' g' → effect q g (o ++ o') g'.
Proof.
  intros (Ha & Hd & Hx & p1 & Hp1 & Hr1) (Ha' & Hd' & Hx' & p2 & Hp2 & Hr2).
  unfold effect. rewrite accepted_app, delivered_app.
  split; [by apply Forall_app_2|]. split; [by apply Forall_app_2|]. split.
  - intros Hg. destruct (Hx Hg) as (Hg1 & -> & ->).
    destruct (Hx' Hg1) as (Hg' & -> & ->). done.
  - destruct g1 as [st1|].
    + exists p2. split; [|done]. rewrite (Hr1 st1 eq_refl) in Hp1. simpl in Hp2.
      rewrite app_assoc, fmap_app, Hp1, <- !app_assoc. f_equal.
      by rewrite <- fmap_app.
    + destruct (Hx' eq_refl) as (-> & -> & ->). exists p1.
      split; [by rewrite !app_nil_r|done].
Qed.

Lemma step_invariant (s s' : System) (a : Action) (o : list Obs) :
  invariant s → step s a = Ok s' o →
  invariant s' ∧ ∀ q, effect q (loop q s) o (loop q s').
Proof.
  intros Hinv Hstep. pose proof (step_moves s a Hinv) as Hm. rewrite Hstep in Hm.
  destruct Hm as (Hm & Hs' & Hw' & Ho'). pose proof Hinv as (_ & _ & Hq).
  assert (∀ q st, loop q s = Running st → queue_ok q st) as Hok.
  { intros q st Hl. by destruct (Hq q st Hl). }
  split.
  - split; [done|]. split; [done|]. intros q st' Hl. split; [|by apply (Ho' q st')].
    by apply (move_queue_ok q (loop q s) (loop q s') o); [apply Hok|apply Hm|].
  - intros q. apply move_effect; [apply Hok|apply Hm].
Qed.

Lemma step_no_crash (s : System) (a : Action) : invariant s → step s a ≠ Crash.
Proof.
  intros Hinv Hstep. pose proof (step_moves s a Hinv) as Hm. by rewrite Hstep in Hm.
Qed.

(** Every schedule keeps the invariant, never panics, and acts on each stream
    as [effect] says. *)
Lemma run_sound (acts : list Action) (s : System) :
  invariant s →
  match run s acts with
  | Ok s' tr => invariant s' ∧ ∀ q, effect q (loop q s) tr (loop q s')
  | Stuck => True
  | Crash => False
  end.
Proof.
  revert s. induction acts as [|a acts IH]; intros s Hinv; simpl.
  - split; [done|]. intros q. apply effect_nil.
  - destruct (step s a) as [s1 o| |] eqn:Hstep; [|done|by apply (step_no_crash s a)].
    destruct (step_invariant s s1 a o Hinv Hstep) as (Hinv1 & He1).
    specialize (IH s1 Hinv1). destruct (run s1 acts) as [s2 o'| |]; [|done|done].
    destruct IH as (Hinv2 & He2). split; [done|].
    intros q. by apply (effect_app q _ (loop q s1)).
Qed.

Lemma run_app (s : System) (acts acts' : list Action) :
  run s (acts ++ acts') =
  match run s acts with
  | Ok s' tr =>
      match run s' acts' with
      | Ok s'' tr' => Ok s'' (tr ++ tr')
      | r => r
      end
  | r => r
  end.
Proof.
  revert s. induction acts as [|a acts IH]; intros s; simpl.
  - by destruct (run s acts').
  - destruct (step s a) as [s1 o| |]; [|done|done]. rewrite IH.
    destruct (run s1 acts) as [s2 tr| |]; [|done|done].
    destruct (run s2 acts') as [s3 tr'| |]; [|done|done]. by rewrite app_assoc.
Qed.

Lemma step_Consume (s : System) (q : Queue) (st : queue) (n : Event) (rest : list Event) :
  invariant s → loop q s = Running st → notifications st = n :: rest →
  ∃ s1 st1, step s (Consume q) = Ok s1 [Delivered q (Some n)] ∧
            loop q s1 = Running st1 ∧ notifications st1 = rest.
Proof.
  intros (_ & _ & Hq) Hl Hn. destruct (Hq q st Hl) as (Hok & _).
  pose proof Hok as (_ & _ & Hd). rewrite Hn in Hd. destruct Hd as (Hd & Hnext).
  destruct (sent_ok q st Hok Hd) as (n' & st1 & Hsent & Hn' & _ & _).
  rewrite Hn in Hn'. injection Hn' as <- ->.
  destruct q; simpl in *.
  - destruct (hGeneral s) as [l|] eqn:Hg; [|done]. injection Hl as <-.
    unfold iterGeneral. rewrite Hg. simpl. rewrite Hd, Hsent, Hnext.
    eexists _, st1. split; [done|]. by simpl.
  - rewrite Hl. unfold iterVoting. rewrite Hl. simpl. rewrite Hd, Hsent, Hnext.
    eexists _, st1. split; [done|]. by simpl.
Qed.

Lemma drain (q : Queue) (pending : list Event) (s : System) (st : queue) :
  invariant s → loop q s = Running st → notifications st = pending →
  ∃ s' st', run s (replicate (length pending) (Consume q))
              = Ok s' ((λ e, Delivered q (Some e)) <$> pending) ∧
            loop q s' = Running st' ∧ notifications st' = [].
Proof.
  revert s st. induction pending as [|n rest IH]; intros s st Hinv Hl Hn.
  - by exists s, st.
  - destruct (step_Consume s q st n rest Hinv Hl Hn) as (s1 & st1 & Hstep & Hl1 & Hn1).
    cbn [length replicate run]. rewrite Hstep.
    destruct (step_invariant s s1 _ _ Hinv Hstep) as (Hinv1 & _).
    destruct (IH s1 st1 Hinv1 Hl1 Hn1) as (s' & st' & -> & Hl' & Hn').
    by exists s', st'.
Qed.

Lemma step_LoopQuit (s : System) (q : Queue) (st : queue) :
  invariant s → quit (client s) = Closed → loop q s = Running st →
  ∃ s', step s (LoopQuit q) = Ok s' [] ∧ loop q s' = Exited ∧
        output q (client s') = Closed ∧ S (wg (client s')) = wg (client s).
Proof.
  intros (Hs & Hw & Hq) Hquit Hl. destruct (Hq q st Hl) as (_ & Ho).
  destruct q; simpl in *.
  - destruct (hGeneral s) as [l|] eqn:Hg; [|done].
    destruct (wg (client s)) as [|k] eqn:Hwg; [simpl in Hw; lia|].
    destruct (handlerExit_ok (client s) k Hs Ho Hwg) as (c' & Hx & _ & Hw' & Hd' & _).
    unfold iterGeneral. rewrite Hg. simpl. rewrite Hquit, Hx.
    eexists. split; [done|]. simpl. by rewrite Hw'.
  - rewrite Hl in Hw.
    destruct (wg (client s)) as [|k] eqn:Hwg; [simpl in Hw; lia|].
    destruct (handlerVotingExit_ok (client s) k Ho Hwg) as (c' & Hx & _ & Hw' & Hd' & _).
    unfold iterVoting. rewrite Hl. simpl. rewrite Hquit, Hx.
    eexists. split; [done|]. simpl. by rewrite Hw'.
Qed.

Lemma step_LoopQuit_open (s : System) (q : Queue) :
  quit (client s) = Open → step s (LoopQuit q) = Stuck.
Proof.
  intros Hquit. destruct q; simpl.
  - unfold iterGeneral. destruct (hGeneral s); [|done]. simpl. by rewrite Hquit.
  - unfold iterVoting. destruct (hVoting s); [|done]. simpl. by rewrite Hquit.
Qed.

(** ** The claims *)

(** C1, as the code has it.  In every execution of a started session, the values the consumer
    of a stream has received, followed by some pending events, are exactly
    the events the loop of that stream accepted, in the order it accepted
    them: nothing is reordered or delivered twice.  While the loop runs the
    pending events are those it holds, so none is lost, and a consumer that
    keeps receiving gets each of them, in order, after which everything
    accepted has been delivered.  (Once the loop has left, the pending events
    are those it discarded.) *)
Theorem fifo_delivery (c : RPCClient) (now : Z) (acts : list Action)
    (s : System) (tr : list Obs) (q : Queue) :
  live c →
  run (session c now) acts = Ok s tr →
  ∃ pending,
    delivered q tr ++ (Some <$> pending) = Some <$> accepted q tr ∧
    ∀ st, loop q s = Running st →
      pending = notifications st ∧
      ∃ s' tr',
        run (session c now) (acts ++ replicate (length pending) (Consume q))
          = Ok s' tr' ∧
        accepted q tr' = accepted q tr ∧
        delivered q tr' = Some <$> accepted q tr ∧
        buffered q s' = [].
Proof.
  intros Hlive Hrun.
  pose proof (run_sound acts (session c now) (session_invariant c now Hlive)) as Hs.
  rewrite Hrun in Hs. destruct Hs as (Hinv & He).
  destruct (He q) as (_ & _ & _ & pending & Hp & Hr).
  assert (held (loop q (session c now)) = []) as Hheld by by destruct q.
  rewrite Hheld in Hp. simpl in Hp.
  exists pending. split; [done|]. intros st Hl. pose proof (Hr st Hl) as ->.
  split; [done|].
  destruct (drain q (notifications st) s st Hinv Hl eq_refl) as (s' & st' & Hd & Hl' & Hn').
  exists s'. eexists. rewrite run_app, Hrun, Hd. split; [done|].
  rewrite accepted_app, delivered_app.
  assert (∀ l, accepted q ((λ e, Delivered q (Some e)) <$> l) = []) as Ha.
  { intros l. by induction l. }
  assert (∀ l, delivered q ((λ e, Delivered q (Some e)) <$> l) = Some <$> l) as Hdl.
  { intros l. destruct q; (induction l as [|e l IHl]; [done|]);
      rewrite !fmap_cons; cbn [delivered]; by rewrite IHl. }
  rewrite Ha, Hdl, app_nil_r. split; [done|]. split; [done|].
  unfold buffered. by rewrite Hl'.
Qed.

(** C2, as the code has it.  In a started session the loops do not drain on
    shutdown.  [Stop] closes the terminal signal and leaves the loops and
    their buffers as they are.  While the signal is open a loop cannot take
    its quit case; once it is closed the case is ready in every state of a
    running loop, whatever is buffered and whether or not the consumer
    reads, and the loop that takes it leaves at once: it closes its output
    channel and decrements the wait group, without delivering what it still
    holds, and nothing is accepted or delivered on that stream afterwards.
    What was delivered before is a prefix, in order, of what was accepted. *)
Theorem quit_closes_without_draining (c : RPCClient) (now : Z) (acts : list Action)
    (s : System) (tr : list Obs) (q : Queue) (st : queue) :
  live c →
  run (session c now) acts = Ok s tr →
  loop q s = Running st →
  (∃ s1, step s CallStop = Ok s1 [] ∧ quit (client s1) = Closed ∧
         loop q s1 = Running st ∧ output q (client s1) = Open) ∧
  (quit (client s) = Open → step s (LoopQuit q) = Stuck) ∧
  (quit (client s) = Closed →
     ∃ s', step s (LoopQuit q) = Ok s' [] ∧
           loop q s' = Exited ∧
           output q (client s') = Closed ∧
           S (wg (client s')) = wg (client s) ∧
           ∀ acts' s'' tr', run s' acts' = Ok s'' tr' →
             accepted q tr' = [] ∧ delivered q tr' = []) ∧
  delivered q tr ++ (Some <$> notifications st) = Some <$> accepted q tr.
Proof.
  intros Hlive Hrun Hl.
  pose proof (run_sound acts (session c now) (session_invariant c now Hlive)) as Hs.
  rewrite Hrun in Hs. destruct Hs as (Hinv & He).
  split; [|split; [|split]].
  - pose proof Hinv as (Hst & _ & Hq). destruct (Hq q st Hl) as (_ & Ho).
    destruct (Stop_started_ok (client s) Hst) as (c' & Hstop & _ & _ & Hd' & Hv' & Hq').
    exists (set_client c' s). simpl. rewrite Hstop. split; [done|]. split; [done|].
    split; [by destruct q|]. destruct q; simpl in *; congruence.
  - apply step_LoopQuit_open.
  - intros Hquit. destruct (step_LoopQuit s q st Hinv Hquit Hl) as (s' & Hstep & Hx & Ho & Hw).
    exists s'. split; [done|]. split; [done|]. split; [done|]. split; [done|].
    intros acts' s'' tr' Hrun'.
    destruct (step_invariant s s' _ _ Hinv Hstep) as (Hinv' & _).
    pose proof (run_sound acts' s' Hinv') as Hs'. rewrite Hrun' in Hs'.
    destruct Hs' as (_ & He'). destruct (He' q) as (_ & _ & Hex & _).
    by destruct (Hex Hx) as (_ & ? & ?).
  - destruct (He q) as (_ & _ & _ & pending & Hp & Hr).
    rewrite (Hr st Hl) in Hp.
    assert (held (loop q (session c now)) = []) as Hheld by by destruct q.
    rewrite Hheld in Hp. by simpl in Hp.
Qed.

(** C3.  [Stop] is idempotent.  On every client on which a first call does
    not panic (its output channels have not been closed behind its back), that
    call leaves the terminal signal closed, and every later call, however
    many, sees it closed and changes nothing at all: no second [Shutdown]
    request is made and no channel is closed again.  The calls hold the
    mutex, so concurrent calls are calls in some order; and in a started
    session no interleaving of the calls of [Stop] by callers, by the probe
    watchers and by [handler] with the other steps ever closes a closed
    channel (which would panic). *)
Theorem Stop_idempotent (c : RPCClient) (n : nat)
    (c0 : RPCClient) (now : Z) (acts : list Action) :
  closable c →
  live c0 →
  (∃ c', Stop c = Some c' ∧
         quit c' = Closed ∧
         Stop c' = Some c' ∧
         Stops (S n) c = Some c' ∧
         Client c' = Client c ++ (match quit c with
                                  | Open => [CallShutdown]
                                  | Closed => []
                                  end)) ∧
  run (session c0 now) acts ≠ Crash.
Proof.
  intros Hc Hlive. split.
  - destruct (closable_Stop c Hc) as [c' Hstop].
    exists c'. pose proof (Stop_quit _ _ Hstop) as Hq.
    split; [done|]. split; [done|]. split; [by apply Stop_closed|].
    split.
    + simpl. rewrite Hstop. simpl. by apply Stops_closed.
    + revert Hstop. unfold Stop. destruct c as [l net d v q w b]; simpl.
      destruct q; [|intros [= <-]; simpl; by rewrite app_nil_r].
      destruct b; simpl; [by intros [= <-]|].
      destruct d; simpl; [|done]. destruct v; simpl; [|done]. by intros [= <-].
  - intros Hrun.
    pose proof (run_sound acts (session c0 now) (session_invariant c0 now Hlive)) as Hs.
    by rewrite Hrun in Hs.
Qed.


(** C5.  Whatever order the map of tickets is visited in,
    [onSpentAndMissedTickets] offers nothing when every ticket is spent, and
    otherwise offers one [missedTickets] event to the general intake whose
    list holds, once each, exactly the tickets whose flag is false.  For the
    map T1: false, T2: true that list is T1 alone. *)
Theorem onSpentAndMissedTickets_unspent (tickets : gmap Hash bool)
    (visited : list (Hash * bool)) (blockHash : HashPtr) (height sdiff : Z) :
  visited ≡ₚ map_to_list tickets →
  ((∀ h b, tickets !! h = Some b → b = true) →
     onSpentAndMissedTickets blockHash height sdiff visited = None) ∧
  ((∃ h, tickets !! h = Some false) →
     ∃ missed,
       onSpentAndMissedTickets blockHash height sdiff visited
         = Some (General, missedTickets blockHash height missed) ∧
       NoDup missed ∧
       ∀ p, p ∈ missed ↔ ∃ h, p = Some h ∧ tickets !! h = Some false) ∧
  (∀ T1 T2, T1 ≠ T2 → tickets = {[T1 := false; T2 := true]} →
     onSpentAndMissedTickets blockHash height sdiff visited
       = Some (General, missedTickets blockHash height [Some T1])).
Proof.
  intros Hperm.
  assert ((∃ h, tickets !! h = Some false) →
          onSpentAndMissedTickets blockHash height sdiff visited
          = Some (General, missedTickets blockHash height (missedOf visited []))) as Hsome.
  { intros [h Hh]. unfold onSpentAndMissedTickets.
    destruct (missedOf visited []) as [|p l] eqn:Hm; [|done]. exfalso.
    assert (Some h ∈ missedOf visited []) as Hin.
    { apply (missedOf_elem tickets); [done|]. by exists h. }
    rewrite Hm in Hin. by apply elem_of_nil in Hin. }
  split; [|split].
  - intros Hall. unfold onSpentAndMissedTickets.
    destruct (missedOf visited []) as [|p l] eqn:Hm; [done|]. exfalso.
    assert (p ∈ missedOf visited []) as Hin by (rewrite Hm; left).
    apply (missedOf_elem tickets) in Hin as [h [_ Hh]]; [|done].
    by apply Hall in Hh.
  - intros Hex. exists (missedOf visited []). split; [by apply Hsome|].
    split; [by apply (missedOf_NoDup tickets)|].
    intros p. by apply missedOf_elem.
  - intros T1 T2 Hne Ht. rewrite Hsome.
    + f_equal. f_equal. f_equal. apply NoDup_only; [by apply (missedOf_NoDup tickets)|].
      intros p. rewrite (missedOf_elem tickets) by done. subst tickets. split.
      * intros [h [-> Hh]]. destruct (decide (h = T1)) as [->|Hn1]; [done|].
        rewrite lookup_insert_ne in Hh by done.
        destruct (decide (h = T2)) as [->|Hn2].
        -- by rewrite lookup_singleton_eq in Hh.
        -- by rewrite lookup_singleton_ne in Hh.
      * intros ->. exists T1. split; [done|]. by rewrite lookup_insert_eq.
    + exists T1. subst tickets. by rewrite lookup_insert_eq.
Qed.

(** C6.  The required API version is 5.0.0.  Against a server on the right
    network that advertises 4.9.0, [Start] returns the incompatible-version
    error and disconnects without starting anything; against one that
    advertises 5.2.3 it passes the check, marks the session started and
    launches both loops.  With this minimum, a version is compatible exactly
    when its major number is 5. *)
Theorem Start_API_version (srv : Server) (c : RPCClient)
    (versions : gmap string VersionResult) :
  Connect srv = None →
  GetCurrentNet srv = Reply (chainParams_Net c) →
  Version srv = Reply versions →
  (versions !! "fnodjsonrpcapi"%string = Some (mkVersionResult 4 9 0) →
     Start srv c =
       (Some (E op None (IncompatibleAPI (mkSemver 4 9 0) (mkSemver 5 0 0))),
        call CallDisconnect (call CallVersion (call CallGetCurrentNet (call CallConnect c))),
        [])) ∧
  (versions !! "fnodjsonrpcapi"%string = Some (mkVersionResult 5 2 3) →
     ∃ c', Start srv c = (None, c', [go_handler; go_handlerVoting]) ∧
           started c' = true ∧ wg c' = (wg c + 2)%nat ∧
           Client c' = Client c ++ [CallConnect; CallGetCurrentNet; CallVersion]) ∧
  (∀ v, semverCompatible requiredChainServerAPI v = true ↔ major v = 5%N).
Proof.
  intros Hc Hn Hv. split; [|split].
  - intros Hl. rewrite (Start_checks srv c (mkSemver 4 9 0) Hc Hn); [done|].
    rewrite Hv. unfold advertised. by rewrite Hl.
  - intros Hl. rewrite (Start_checks srv c (mkSemver 5 2 3) Hc Hn).
    + simpl. eexists. split; [done|]. simpl.
      by rewrite <- !app_assoc.
    + rewrite Hv. unfold advertised. by rewrite Hl.
  - intros [ma mi pa]. unfold semverCompatible, semver_le, requiredChainServerAPI.
    cbn [major minor patch]. split.
    + intros H. apply andb_prop in H as [H _]. apply N.eqb_eq in H. done.
    + intros <-. rewrite N.eqb_refl, N.ltb_irrefl. cbn [andb].
      destruct (0 <? mi)%N eqn:E1; [done|].
      assert (mi = 0%N) as -> by (apply N.ltb_ge in E1; lia).
      apply N.leb_le. lia.
Qed.

(** C7.  When the server is on another network than the wallet, [Start]
    returns the mismatched-networks error; the started flag, the wait group
    and the set of goroutines are as before, and the last request made on the
    transport is [Disconnect]. *)
Theorem Start_mismatched_networks (srv : Server) (c : RPCClient) (net : N) :
  Connect srv = None →
  GetCurrentNet srv = Reply net →
  net ≠ chainParams_Net c →
  ∃ c', Start srv c = (Some (E op None (Message "mismatched networks")), c', []) ∧
        started c' = started c ∧
        wg c' = wg c ∧
        quit c' = quit c ∧
        Client c' = Client c ++ [CallConnect; CallGetCurrentNet; CallDisconnect].
Proof.
  intros Hc Hn Hne. unfold Start. rewrite Hc, Hn.
  apply N.eqb_neq in Hne. cbn [chainParams_Net call]. rewrite Hne. simpl.
  eexists. split; [done|]. simpl. by rewrite <- !app_assoc.
Qed.

(** C8.  In a started session whose general loop runs:
    - the idle timer is armed for 60 s after the loop starts, and again for
      60 s after every event the general loop accepts; a step in which the
      loop accepts no event, other than the probe and its reset, leaves it
      as it is;
    - the ping case cannot fire before the armed instant; from then on it can,
      and it issues a Session request watched with a timeout of 60 s of its
      own, without touching the queue;
    - if the request returns an error, or the timeout of the watcher
      expires (no sooner than 60 s after the probe), [Stop] is run and the
      terminal signal is closed, without any caller;
    - if the request succeeds, the watcher hands a timer armed for 60 s later
      to the loop, which takes it as its idle timer; the client is unchanged,
      so the session stays up. *)
Theorem liveness_probe (c : RPCClient) (now : Z) (acts : list Action)
    (s : System) (tr : list Obs) (st : locals) :
  live c →
  run (session c now) acts = Ok s tr →
  hGeneral s = Running st →
  pingChan (locals0 now) = Armed (now + 60 * Second) ∧
  (∀ n e s' o,
     callback n = Some (General, e) → step s (Notify n) = Ok s' o →
     ∃ st', hGeneral s' = Running st' ∧ pingChan st' = Armed (clock s + 60 * Second)) ∧
  (∀ a s' o st',
     step s a = Ok s' o → hGeneral s' = Running st' →
     accepted General o = [] → a ≠ PingFire → (∀ i, a ≠ PingReset i) →
     pingChan st' = pingChan st) ∧
  (∀ t, pingChan st = Armed t →
     (clock s < t → step s PingFire = Stuck) ∧
     (t ≤ clock s →
        step s PingFire =
          Ok (mkSystem (call CallSession (client s))
                (Running (mkLocals (lq st) Spent)) (hVoting s)
                (probes s ++ [Waiting (Armed (clock s + 60 * Second))]) (clock s)) [])) ∧
  (∀ i t, probes s !! i = Some (Waiting (Armed t)) →
     (∀ e, ∃ s', step s (ProbeAnswer i (Some e)) = Ok s' [] ∧
                 quit (client s') = Closed) ∧
     (clock s < t → step s (ProbeTimeout i) = Stuck) ∧
     (t ≤ clock s →
        ∃ s', step s (ProbeTimeout i) = Ok s' [] ∧ quit (client s') = Closed) ∧
     (∃ s1 s2,
        step s (ProbeAnswer i None) = Ok s1 [] ∧
        step s1 (PingReset i) = Ok s2 [] ∧
        client s2 = client s ∧
        hGeneral s2 = Running (mkLocals (lq st) (Armed (clock s + 60 * Second))) ∧
        hVoting s2 = hVoting s)).
Proof.
  intros Hlive Hrun Hg.
  pose proof (run_sound acts (session c now) (session_invariant c now Hlive)) as Hs.
  rewrite Hrun in Hs. destruct Hs as (Hinv & _).
  pose proof Hinv as (Hst & _ & Hq).
  destruct (Hq General (lq st)) as ((Henq & _) & _); [simpl; by rewrite Hg|].
  destruct (Stop_started_ok (client s) Hst) as (c' & Hstop & _ & _ & _ & _ & Hquit).
  split; [done|]. split; [|split; [|split]].
  - intros n e s' o Hcb. simpl. rewrite Hcb. unfold iterGeneral. rewrite Hg. simpl.
    rewrite Henq. intros [= <- <-]. by eexists.
  - intros a s' o st' Hstep Hg' Hacc Hfire Hreset.
    destruct a as [n|n|[]| |[]|d| |i err|i|i]; simpl in Hstep.
    + destruct (callback n) as [[[] e]|].
      * unfold iterGeneral in Hstep. rewrite Hg in Hstep. simpl in Hstep.
        rewrite Henq in Hstep. injection Hstep as <- <-. done.
      * unfold iterVoting in Hstep. destruct (hVoting s) as [v|]; [|done].
        destruct (handlerVoting _ _ _); try done.
        -- injection Hstep as <- <-. simpl in Hg'. congruence.
        -- destruct (handlerVotingExit (client s)); [|done].
           injection Hstep as <- <-. simpl in Hg'. congruence.
      * injection Hstep as <- <-. congruence.
    + destruct (callback n); [destruct (quit (client s)); [done|]|];
        injection Hstep as <- <-; congruence.
    + rewrite Hg in Hstep. unfold iterGeneral in Hstep. rewrite Hg in Hstep.
      simpl in Hstep. destruct (dequeue (lq st)); [|done].
      destruct (sent (lq st)); try done.
      * injection Hstep as <- <-. simpl in Hg'. by injection Hg' as <-.
      * destruct (handlerExit (client s)); [|done]. injection Hstep as <- <-. done.
    + destruct (hVoting s) as [v|] eqn:Hv; [|done].
      unfold iterVoting in Hstep. rewrite Hv in Hstep.
      destruct (handlerVoting _ _ _); try done.
      * injection Hstep as <- <-. simpl in Hg'. congruence.
      * destruct (handlerVotingExit (client s)); [|done].
        injection Hstep as <- <-. simpl in Hg'. congruence.
    + rewrite Hstop in Hstep. injection Hstep as <- <-. simpl in Hg'. congruence.
    + unfold iterGeneral in Hstep. rewrite Hg in Hstep. simpl in Hstep.
      destruct (quit (client s)); [done|].
      destruct (handlerExit (client s)); [|done]. injection Hstep as <- <-. done.
    + unfold iterVoting in Hstep. destruct (hVoting s) as [v|]; [|done].
      simpl in Hstep. destruct (quit (client s)); [done|].
      destruct (handlerVotingExit (client s)); [|done].
      injection Hstep as <- <-. simpl in Hg'. congruence.
    + destruct (0 <=? d); [|done]. injection Hstep as <- <-. simpl in Hg'. congruence.
    + done.
    + destruct (probes s !! i) as [[]|]; try done.
      destruct err; [rewrite Hstop in Hstep|]; injection Hstep as <- <-;
        simpl in Hg'; congruence.
    + destruct (probes s !! i) as [[[t0|]|]|]; try done.
      destruct (t0 <=? clock s); [|done]. rewrite Hstop in Hstep.
      injection Hstep as <- <-. simpl in Hg'. congruence.
    + by destruct (Hreset i).
  - intros t Ht. simpl. unfold iterGeneral. rewrite Hg. simpl. rewrite Ht. split.
    + intros Hlt. apply Z.leb_gt in Hlt. by rewrite Hlt.
    + intros Hle. apply Z.leb_le in Hle. by rewrite Hle.
  - intros i t Hi. split; [|split; [|split]].
    + intros e. simpl. rewrite Hi, Hstop. by eexists.
    + intros Hlt. simpl. rewrite Hi. apply Z.leb_gt in Hlt. by rewrite Hlt.
    + intros Hle. simpl. rewrite Hi, Hstop. apply Z.leb_le in Hle. rewrite Hle. by eexists.
    + eexists _, _. simpl. rewrite Hi. split; [done|]. simpl.
      rewrite list_lookup_insert_eq by (by apply lookup_lt_Some in Hi).
      unfold iterGeneral. simpl. rewrite Hg. simpl. split; [done|]. simpl. by destruct s.
Qed.

(** C9.  A first [Stop] on a client whose session never started closes both
    output channels itself; on a started client it leaves both as they are,
    and each dispatch loop closes its own when it leaves.  [Start] sets the
    started flag exactly when it succeeds. *)
Theorem Stop_closes_outputs_unless_started (c c' : RPCClient) (srv : Server) :
  quit c = Open → Stop c = Some c' →
  started (Start srv c).1.2
    = match (Start srv c).1.1 with None => true | Some _ => started c end ∧
  (started c = false →
     dequeueNotification c = Open ∧ dequeueVotingNotification c = Open ∧
     dequeueNotification c' = Closed ∧ dequeueVotingNotification c' = Closed) ∧
  (started c = true →
     dequeueNotification c' = dequeueNotification c ∧
     dequeueVotingNotification c' = dequeueVotingNotification c ∧
     ∀ k, wg c' = S k →
       (dequeueNotification c' = Open →
          ∃ c1, handlerExit c' = Some c1 ∧ dequeueNotification c1 = Closed) ∧
       (dequeueVotingNotification c' = Open →
          ∃ c1, handlerVotingExit c' = Some c1 ∧
                dequeueVotingNotification c1 = Closed)).
Proof.
  intros Hq Hstop. split; [apply Start_started|].
  assert (started c = true → ∀ k, wg c' = S k →
            (dequeueNotification c' = Open →
               ∃ c1, handlerExit c' = Some c1 ∧ dequeueNotification c1 = Closed) ∧
            (dequeueVotingNotification c' = Open →
               ∃ c1, handlerVotingExit c' = Some c1 ∧
                     dequeueVotingNotification c1 = Closed)) as Hloops.
  { intros Hs k Hw. rewrite <- (Stop_started c c' Hstop) in Hs. split; intros Ho.
    - destruct (handlerExit_ok c' k Hs Ho Hw) as (c1 & Hx & _ & _ & Hd & _). eauto.
    - destruct (handlerVotingExit_ok c' k Ho Hw) as (c1 & Hx & _ & _ & Hd & _). eauto. }
  revert Hq Hstop Hloops. unfold Stop. destruct c as [l net d v q w b]; simpl.
  intros -> Hstop Hloops. destruct b; simpl in Hstop.
  - injection Hstop as <-. split; [done|]. intros _. split; [done|]. split; [done|].
    by apply Hloops.
  - destruct d; simpl in Hstop; [|done]. destruct v; simpl in Hstop; [|done].
    injection Hstop as <-. split; [by intros _|done].
Qed.

(** C10.  When the [Version] request fails, its error is dropped: the server
    counts as advertising 0.0.0, and [Start] returns the incompatible-version
    error naming 0.0.0 (with no kind, and not the request's error), then
    disconnects. *)
Theorem Start_Version_fails (srv : Server) (c : RPCClient) (e : RPCErr) :
  Connect srv = None →
  GetCurrentNet srv = Reply (chainParams_Net c) →
  Version srv = Fail e →
  Start srv c =
    (Some (E op None (IncompatibleAPI (mkSemver 0 0 0) requiredChainServerAPI)),
     call CallDisconnect (call CallVersion (call CallGetCurrentNet (call CallConnect c))),
     []).
Proof.
  intros Hc Hn Hv. rewrite (Start_checks srv c (mkSemver 0 0 0) Hc Hn); [done|].
  by rewrite Hv.
Qed.

(** ** Further properties of Start *)

(** The only entry of a [Version] reply that [Start] reads. *)
Definition zero_versions : gmap string VersionResult :=
  {[ "fnodjsonrpcapi"%string := zeroVersionResult ]}.

(** X1.  Whatever the server answers, [Start] returns nil exactly when it
    launches the two loops, and then it has set the started flag and added two
    to the wait group; when it returns an error it launches nothing and
    leaves the started flag and the wait group as they were.  It never
    touches the terminal signal, the output channels or the configured
    network. *)
Theorem Start_all_or_nothing (srv : Server) (c : RPCClient) :
  ((Start srv c).1.1 = None ↔ (Start srv c).2 = [go_handler; go_handlerVoting]) ∧
  ((Start srv c).1.1 = None →
     started (Start srv c).1.2 = true ∧ wg (Start srv c).1.2 = (wg c + 2)%nat) ∧
  ((Start srv c).1.1 ≠ None →
     (Start srv c).2 = [] ∧
     started (Start srv c).1.2 = started c ∧ wg (Start srv c).1.2 = wg c) ∧
  quit (Start srv c).1.2 = quit c ∧
  dequeueNotification (Start srv c).1.2 = dequeueNotification c ∧
  dequeueVotingNotification (Start srv c).1.2 = dequeueVotingNotification c ∧
  chainParams_Net (Start srv c).1.2 = chainParams_Net c.
Proof.
  unfold Start, deferred. destruct (Connect srv); [by simpl|].
  destruct (GetCurrentNet srv) as [net|e]; [|by simpl]. cbn [call chainParams_Net].
  destruct (negb (net =? chainParams_Net c)%N); [by simpl|].
  destruct (negb (semverCompatible _ _)); by simpl.
Qed.

(** X2.  The requests [Start] makes on the transport, in order.  If
    [Connect] fails, it is the only request and the error has kind IO: the
    transport is not disconnected.  Otherwise the network is asked for; the
    version is asked for only if the network request succeeded and named the
    wallet's network; and [Disconnect] is requested, as the last request,
    exactly when [Start] returns an error.  A failed network request is
    reported under the operation fnod.jsonrpc.getcurrentnet. *)
Theorem Start_requests (srv : Server) (c : RPCClient) :
  ∃ reqs,
    Client (Start srv c).1.2 = Client c ++ reqs ∧
    match Connect srv with
    | Some e =>
        reqs = [CallConnect] ∧
        (Start srv c).1.1 = Some (E op (Some IO) (Cause e))
    | None =>
        (∃ more, reqs = CallConnect :: CallGetCurrentNet :: more) ∧
        (CallVersion ∈ reqs ↔ GetCurrentNet srv = Reply (chainParams_Net c)) ∧
        (CallDisconnect ∈ reqs ↔ (Start srv c).1.1 ≠ None) ∧
        ((Start srv c).1.1 ≠ None → last reqs = Some CallDisconnect) ∧
        (∀ e, GetCurrentNet srv = Fail e →
           (Start srv c).1.1
           = Some (E op None (E "fnod.jsonrpc.getcurrentnet" None (Cause e))))
    end.
Proof.
  unfold Start, deferred. destruct (Connect srv) as [e|].
  { exists [CallConnect]. by simpl. }
  destruct (GetCurrentNet srv) as [net|e].
  2:{ exists [CallConnect; CallGetCurrentNet; CallDisconnect]. simpl.
      rewrite <- !app_assoc. split; [done|]. split; [by eexists|].
      split; [|split; [|split]]; try done.
      - split; [|done]. intros Hin.
        repeat (apply elem_of_cons in Hin as [Hin|Hin]; [done|]).
        by apply elem_of_nil in Hin.
      - split; [done|]. intros _. do 2 right. left.
      - by intros e' [= <-]. }
  cbn [call chainParams_Net].
  destruct (net =? chainParams_Net c)%N eqn:Hnet; cbn [negb].
  2:{ exists [CallConnect; CallGetCurrentNet; CallDisconnect]. simpl.
      rewrite <- !app_assoc. split; [done|]. split; [by eexists|].
      apply N.eqb_neq in Hnet.
      split; [|split; [|split]]; try done.
      - split; [|by intros [= ?]]. intros Hin.
        repeat (apply elem_of_cons in Hin as [Hin|Hin]; [done|]).
        by apply elem_of_nil in Hin.
      - split; [done|]. intros _. do 2 right. left. }
  apply N.eqb_eq in Hnet. subst net.
  destruct (negb (semverCompatible _ _)).
  - exists [CallConnect; CallGetCurrentNet; CallVersion; CallDisconnect]. simpl.
    rewrite <- !app_assoc. split; [done|]. split; [by eexists|].
    split; [|split; [|split]]; try done.
    + split; [done|]. intros _. do 2 right. left.
    + split; [done|]. intros _. do 3 right. left.
  - exists [CallConnect; CallGetCurrentNet; CallVersion]. simpl.
    rewrite <- !app_assoc. split; [done|]. split; [by eexists|].
    split; [|split; [|split]]; try done.
    + split; [done|]. intros _. do 2 right. left.
    + split; [|done]. intros Hin.
      repeat (apply elem_of_cons in Hin as [Hin|Hin]; [done|]).
      by apply elem_of_nil in Hin.
Qed.

(** X3.  A [Version] request that fails, and a reply that has no entry for
    fnodjsonrpcapi, are both taken for a server that advertises 0.0.0: [Start]
    does exactly what it does against the same server advertising 0.0.0. *)
Theorem Start_version_defaults_to_zero (srv : Server) (c : RPCClient) :
  (match Version srv with
   | Reply versions => versions !! "fnodjsonrpcapi"%string = None
   | Fail _ => True
   end) →
  Start srv c
  = Start (mkServer (Connect srv) (GetCurrentNet srv) (Reply zero_versions)) c.
Proof.
  intros Hv. unfold Start. simpl. destruct (Connect srv); [done|].
  destruct (GetCurrentNet srv) as [net|e]; [|done].
  destruct (negb (net =? _)%N); [done|].
  destruct (Version srv) as [versions|e]; [by rewrite Hv|done].
Qed.

(** ** Further properties of the session *)

(** [later c c']: what is closed or set in [c] is closed or set in [c'], the
    network is the same and the log of requests has only grown. *)
Definition later (c c' : RPCClient) : Prop :=
  (quit c = Closed → quit c' = Closed) ∧
  (dequeueNotification c = Closed → dequeueNotification c' = Closed) ∧
  (dequeueVotingNotification c = Closed → dequeueVotingNotification c' = Closed) ∧
  (started c = true → started c' = true) ∧
  chainParams_Net c' = chainParams_Net c ∧
  Client c `prefix_of` Client c'.

(** The wait group counts exactly the loops that run, and a loop that has
    left has closed its output channel after the terminal signal was closed. *)
Definition settled (s : System) : Prop :=
  wg (client s) = (running (hGeneral s) + running (hVoting s))%nat ∧
  (hGeneral s = Exited →
     dequeueNotification (client s) = Closed ∧ quit (client s) = Closed) ∧
  (hVoting s = Exited →
     dequeueVotingNotification (client s) = Closed ∧ quit (client s) = Closed).

(** What one step does to the loops and the wait group: it leaves them
    running or not as they were, or exactly one loop leaves. *)
Definition shift (s s' : System) : Prop :=
  (running (hGeneral s') = running (hGeneral s) ∧
   running (hVoting s') = running (hVoting s) ∧
   wg (client s') = wg (client s)) ∨
  (running (hGeneral s) = 1%nat ∧ hGeneral s' = Exited ∧
   running (hVoting s') = running (hVoting s) ∧
   S (wg (client s')) = wg (client s) ∧
   dequeueNotification (client s') = Closed ∧ quit (client s') = Closed) ∨
  (running (hVoting s) = 1%nat ∧ hVoting s' = Exited ∧
   running (hGeneral s') = running (hGeneral s) ∧
   S (wg (client s')) = wg (client s) ∧
   dequeueVotingNotification (client s') = Closed ∧ quit (client s') = Closed).

(** The schedule that shuts a session down: [Stop], then each loop that still
    runs takes its quit case. *)
Definition shutdown (s : System) : list Action :=
  CallStop ::
  match hGeneral s with
  | Running _ => [LoopQuit General]
  | Exited => []
  end ++
  match hVoting s with
  | Running _ => [LoopQuit Voting]
  | Exited => []
  end.

(** The notifications on which a callback returns before its [select]: a
    transaction that fails to deserialize, and a map of tickets without a
    missed one. *)
Definition silent (n : Notification) : Prop :=
  match n with
  | OnRelevantTxAccepted transaction => Deserialize transaction = None
  | OnSpentAndMissedTickets _ _ _ tickets => ∀ h b, (h, b) ∈ tickets → b = true
  | _ => False
  end.

(** The watchers that are blocked sending on [pingChanReset]. *)
Fixpoint resetting (p : list watcher) : nat :=
  match p with
  | [] => 0
  | Resetting _ :: p' => S (resetting p')
  | Waiting _ :: p' => resetting p'
  end.

Lemma later_refl (c : RPCClient) : later c c.
Proof. by repeat split. Qed.

Lemma later_trans (c1 c2 c3 : RPCClient) : later c1 c2 → later c2 c3 → later c1 c3.
Proof.
  intros (H1 & H2 & H3 & H4 & H5 & H6) (K1 & K2 & K3 & K4 & K5 & K6).
  repeat split; [auto..|congruence|by etrans].
Qed.

Lemma later_call (r : Call) (c : RPCClient) : later c (call r c).
Proof. repeat split; try done. simpl. by apply prefix_app_r. Qed.

Lemma later_Stop (c c' : RPCClient) : Stop c = Some c' → later c c'.
Proof.
  unfold Stop. destruct c as [l net d v q w b]; simpl.
  destruct q; [|intros [= <-]; apply later_refl].
  destruct b; simpl.
  - intros [= <-]. repeat split; try done. simpl. by apply prefix_app_r.
  - destruct d; simpl; [|done]. destruct v; simpl; [|done].
    intros [= <-]. repeat split; try done. simpl. by apply prefix_app_r.
Qed.

Lemma later_handlerExit (c c' : RPCClient) : handlerExit c = Some c' → later c c'.
Proof.
  unfold handlerExit. destruct (Stop c) as [c1|] eqn:Hstop; [|done]. simpl.
  pose proof (later_Stop c c1 Hstop) as Hl.
  destruct c1 as [l net d v q w b]; simpl. destruct d; [|done]. simpl.
  unfold wgDone. simpl. destruct w; [done|]. intros [= <-].
  eapply later_trans; [exact Hl|]. by repeat split.
Qed.

Lemma later_handlerVotingExit (c c' : RPCClient) :
  handlerVotingExit c = Some c' → later c c'.
Proof.
  unfold handlerVotingExit. destruct c as [l net d v q w b]; simpl.
  destruct v; [|done]. simpl. unfold wgDone. simpl. destruct w; [done|].
  intros [= <-]. by repeat split.
Qed.

Lemma iterGeneral_later (s s' : System) (sel : selectCase) (o o' : list Obs) :
  iterGeneral s sel o = Ok s' o' → later (client s) (client s') ∧ probes s' = probes s.
Proof.
  unfold iterGeneral. destruct (hGeneral s); [|done].
  destruct (handler _ _ _ _); try done.
  - intros [= <- <-]. split; [apply later_refl|done].
  - destruct (handlerExit (client s)) as [c'|] eqn:Hx; [|done].
    intros [= <- <-]. split; [by apply later_handlerExit|done].
Qed.

Lemma iterVoting_later (s s' : System) (sel : selectCase) (o o' : list Obs) :
  iterVoting s sel o = Ok s' o' → later (client s) (client s') ∧ probes s' = probes s.
Proof.
  unfold iterVoting. destruct (hVoting s); [|done].
  destruct (handlerVoting _ _ _); try done.
  - intros [= <- <-]. split; [apply later_refl|done].
  - destruct (handlerVotingExit (client s)) as [c'|] eqn:Hx; [|done].
    intros [= <- <-]. split; [by apply later_handlerVotingExit|done].
Qed.

Lemma step_later (s s' : System) (a : Action) (o : list Obs) :
  step s a = Ok s' o → later (client s) (client s').
Proof.
  destruct a as [n|n|[]| |[]|d| |i err|i|i]; simpl.
  - destruct (callback n) as [[[] e]|].
    + intros Hi. by apply iterGeneral_later in Hi as [? _].
    + intros Hi. by apply iterVoting_later in Hi as [? _].
    + intros [= <- <-]. apply later_refl.
  - destruct (callback n); [destruct (quit (client s)); [done|]|];
      intros [= <- <-]; apply later_refl.
  - destruct (hGeneral s); [|done]. intros Hi. by apply iterGeneral_later in Hi as [? _].
  - destruct (hVoting s); [|done]. intros Hi. by apply iterVoting_later in Hi as [? _].
  - destruct (Stop (client s)) as [c'|] eqn:Hstop; [|done]. intros [= <- <-].
    by apply later_Stop.
  - intros Hi. by apply iterGeneral_later in Hi as [? _].
  - intros Hi. by apply iterVoting_later in Hi as [? _].
  - destruct (0 <=? d); [|done]. intros [= <- <-]. apply later_refl.
  - destruct (iterGeneral s CasePingChan []) as [s1 o1| |] eqn:Hi; [|done|done].
    intros [= <- <-]. simpl. apply iterGeneral_later in Hi as [Hl _].
    eapply later_trans; [exact Hl|apply later_call].
  - destruct (probes s !! i) as [[]|]; try done. destruct err.
    + destruct (Stop (client s)) as [c'|] eqn:Hstop; [|done]. intros [= <- <-].
      by apply later_Stop.
    + intros [= <- <-]. apply later_refl.
  - destruct (probes s !! i) as [[[t0|]|]|]; try done.
    destruct (t0 <=? clock s); [|done].
    destruct (Stop (client s)) as [c'|] eqn:Hstop; [|done]. intros [= <- <-].
    by apply later_Stop.
  - destruct (probes s !! i) as [[]|]; try done.
    destruct (iterGeneral s _ []) as [s1 o1| |] eqn:Hi; [|done|done].
    intros [= <- <-]. simpl. by apply iterGeneral_later in Hi as [? _].
Qed.

Lemma run_later (acts : list Action) (s s' : System) (tr : list Obs) :
  run s acts = Ok s' tr → later (client s) (client s').
Proof.
  revert s tr. induction acts as [|a acts IH]; intros s tr; simpl.
  - intros [= <- <-]. apply later_refl.
  - destruct (step s a) as [s1 o| |] eqn:Hstep; [|done|done].
    destruct (run s1 acts) as [s2 o'| |] eqn:Hrun; [|done|done].
    intros [= <- <-]. eapply later_trans; [by eapply step_later|by eapply IH].
Qed.

(** X4.  The terminal signal is permanent.  Along every execution a closed
    terminal signal or output channel stays closed, the started flag stays
    set, and the log of requests only grows; and once the terminal signal is
    closed, every callback that would have to wait for its loop can leave
    through its quit case instead, in any later state, whatever the loops are
    doing: no callback is blocked for ever by a stopped client. *)
Theorem quit_is_permanent (s s' : System) (acts : list Action) (tr : list Obs) :
  run s acts = Ok s' tr →
  later (client s) (client s') ∧
  (quit (client s) = Closed → ∀ n, step s' (NotifyQuit n) = Ok s' []).
Proof.
  intros Hrun. pose proof (run_later acts s s' tr Hrun) as Hl.
  split; [done|]. intros Hq n. destruct Hl as (Hq' & _). simpl.
  rewrite (Hq' Hq). by destruct (callback n).
Qed.

Lemma step_shift (s s' : System) (a : Action) (o : list Obs) :
  invariant s → step s a = Ok s' o → shift s s'.
Proof.
  intros (Hs & Hw & Hq).
  destruct s as [c g v p t]; simpl in *.
  assert (∀ st, g = Running st →
            queue_ok General (lq st) ∧ dequeueNotification c = Open) as HG.
  { intros st ->. by apply (Hq General). }
  assert (∀ st, v = Running st →
            queue_ok Voting st ∧ dequeueVotingNotification c = Open) as HV.
  { intros st ->. by apply (Hq Voting). }
  clear Hq. unfold shift.
  destruct a as [n|n|[]| |[]|d| |i err|i|i]; simpl.
  - destruct (callback n) as [[[] e]|].
    + unfold iterGeneral. simpl. destruct g as [st|]; [|done].
      destruct (HG _ eq_refl) as ((-> & _) & _). intros [= <- <-]. by left.
    + unfold iterVoting. simpl. destruct v as [st|]; [|done].
      destruct (HV _ eq_refl) as ((-> & _) & _). intros [= <- <-]. by left.
    + intros [= <- <-]. by left.
  - destruct (callback n); [destruct (quit c); [done|]|]; intros [= <- <-]; by left.
  - destruct g as [st|]; [|done]. unfold iterGeneral. simpl.
    destruct (dequeue (lq st)) eqn:Hd; [|done]. destruct (HG _ eq_refl) as (Hok & _).
    destruct (sent_ok General (lq st) Hok Hd) as (n & s1 & -> & _).
    intros [= <- <-]. by left.
  - destruct v as [st|]; [|done]. unfold iterVoting. simpl.
    destruct (dequeue st) eqn:Hd; [|done]. destruct (HV _ eq_refl) as (Hok & _).
    destruct (sent_ok Voting st Hok Hd) as (n & s1 & -> & _).
    intros [= <- <-]. by left.
  - destruct (Stop_started_ok c Hs) as (c' & -> & _ & Hw' & _).
    intros [= <- <-]. by left.
  - unfold iterGeneral. simpl. destruct g as [st|]; [|done].
    destruct (quit c) eqn:Hquit; [done|]. destruct (HG _ eq_refl) as (_ & Ho).
    destruct (wg c) as [|k] eqn:Hwg; [simpl in Hw; lia|].
    destruct (handlerExit_ok c k Hs Ho Hwg) as (c' & -> & _ & Hw' & Hd' & _ & Hq').
    intros [= <- <-]. right; left. simpl. by rewrite Hw'.
  - unfold iterVoting. simpl. destruct v as [st|]; [|done].
    destruct (quit c) eqn:Hquit; [done|]. destruct (HV _ eq_refl) as (_ & Ho).
    destruct (wg c) as [|k] eqn:Hwg; [simpl in Hw; lia|].
    destruct (handlerVotingExit_ok c k Ho Hwg) as (c' & -> & _ & Hw' & Hv' & _ & Hq').
    intros [= <- <-]. right; right. simpl. rewrite Hw', Hq'. done.
  - destruct (0 <=? d); [|done]. intros [= <- <-]. by left.
  - unfold iterGeneral. simpl. destruct g as [st|]; [|done].
    destruct (pingChan st) as [t0|]; [|done]. destruct (t0 <=? t); [|done].
    intros [= <- <-]. by left.
  - destruct (p !! i) as [[]|]; try done. destruct err as [e|].
    + destruct (Stop_started_ok c Hs) as (c' & -> & _ & Hw' & _).
      intros [= <- <-]. by left.
    + intros [= <- <-]. by left.
  - destruct (p !! i) as [[[t0|]|]|]; try done. destruct (t0 <=? t); [|done].
    destruct (Stop_started_ok c Hs) as (c' & -> & _ & Hw' & _).
    intros [= <- <-]. by left.
  - destruct (p !! i) as [[]|]; try done.
    unfold iterGeneral. simpl. destruct g as [st|]; [|done].
    intros [= <- <-]. by left.
Qed.

Lemma running_Exited {L : Type} (g : goroutine L) : running g = 0%nat ↔ g = Exited.
Proof. by destruct g. Qed.

Lemma step_settled (s s' : System) (a : Action) (o : list Obs) :
  invariant s → settled s → step s a = Ok s' o → settled s'.
Proof.
  intros Hinv (Hw & HG & HV) Hstep.
  pose proof (step_later s s' a o Hstep) as (Lq & Ld & Lv & _).
  destruct (step_shift s s' a o Hinv Hstep)
    as [(Rg & Rv & Hw')|[(Rg & Xg & Rv & Hw' & Hd' & Hq')|(Rv & Xv & Rg & Hw' & Hd' & Hq')]].
  - split; [congruence|]. split.
    + intros Hx. apply running_Exited in Hx. rewrite Rg in Hx.
      apply running_Exited in Hx. destruct (HG Hx). auto.
    + intros Hx. apply running_Exited in Hx. rewrite Rv in Hx.
      apply running_Exited in Hx. destruct (HV Hx). auto.
  - split; [rewrite Xg, Rv; simpl; lia|]. split; [done|].
    intros Hx. apply running_Exited in Hx. rewrite Rv in Hx.
    apply running_Exited in Hx. destruct (HV Hx). auto.
  - split; [rewrite Xv, Rg; simpl; lia|]. split; [|done].
    intros Hx. apply running_Exited in Hx. rewrite Rg in Hx.
    apply running_Exited in Hx. destruct (HG Hx). auto.
Qed.

Lemma run_settled (acts : list Action) (s s' : System) (tr : list Obs) :
  invariant s → settled s → run s acts = Ok s' tr → invariant s' ∧ settled s'.
Proof.
  revert s tr. induction acts as [|a acts IH]; intros s tr Hinv Hset; simpl.
  - by intros [= <- <-].
  - destruct (step s a) as [s1 o| |] eqn:Hstep; [|done|done].
    destruct (run s1 acts) as [s2 o'| |] eqn:Hrun; [|done|done].
    intros [= <- <-]. destruct (step_invariant s s1 a o Hinv Hstep) as (Hinv1 & _).
    eapply IH; [exact Hinv1|exact (step_settled s s1 a o Hinv Hset Hstep)|exact Hrun].
Qed.

Lemma session_settled (c : RPCClient) (now : Z) : wg c = 2%nat → settled (session c now).
Proof. intros Hw. by split. Qed.

(** X5.  The wait group that [WaitForShutdown] waits on.  In a session
    started with the two units [Start] adds, the counter is at every moment
    the number of loops still running.  So it is zero exactly when both
    loops have left, and by then the terminal signal and both output
    channels are closed: [WaitForShutdown] cannot return before the consumer
    can see the end of both streams. *)
Theorem wg_counts_running_loops (c : RPCClient) (now : Z) (acts : list Action)
    (s : System) (tr : list Obs) :
  live c → wg c = 2%nat →
  run (session c now) acts = Ok s tr →
  wg (client s) = (running (hGeneral s) + running (hVoting s))%nat ∧
  (wg (client s) = 0%nat ↔ hGeneral s = Exited ∧ hVoting s = Exited) ∧
  (wg (client s) = 0%nat →
     quit (client s) = Closed ∧
     dequeueNotification (client s) = Closed ∧
     dequeueVotingNotification (client s) = Closed).
Proof.
  intros Hlive Hwg Hrun.
  destruct (run_settled acts (session c now) s tr (session_invariant c now Hlive)
              (session_settled c now Hwg) Hrun) as (_ & Hw & HG & HV).
  split; [done|].
  assert (wg (client s) = 0%nat → hGeneral s = Exited ∧ hVoting s = Exited) as Hx.
  { rewrite Hw. intros H0. split; apply running_Exited; lia. }
  split.
  - split; [done|]. intros [Xg Xv]. by rewrite Hw, Xg, Xv.
  - intros H0. destruct (Hx H0) as [Xg Xv].
    destruct (HG Xg) as [? ?]. by destruct (HV Xv) as [? _].
Qed.

(** X6.  Shutdown always completes.  From every state a started session can
    reach, whatever the loops hold and whether or not anybody reads the
    output channels, [Stop] followed by the quit case of each loop that
    still runs can be taken; nothing is delivered on the way, both loops
    have left, both output channels and the terminal signal are closed, and
    the wait group is at zero. *)
Theorem shutdown_completes (c : RPCClient) (now : Z) (acts : list Action)
    (s : System) (tr : list Obs) :
  live c → wg c = 2%nat →
  run (session c now) acts = Ok s tr →
  ∃ s', run s (shutdown s) = Ok s' [] ∧
        hGeneral s' = Exited ∧ hVoting s' = Exited ∧
        quit (client s') = Closed ∧
        dequeueNotification (client s') = Closed ∧
        dequeueVotingNotification (client s') = Closed ∧
        wg (client s') = 0%nat.
Proof.
  intros Hlive Hwg Hrun.
  destruct (run_settled acts (session c now) s tr (session_invariant c now Hlive)
              (session_settled c now Hwg) Hrun) as (Hinv & Hset).
  assert (∃ s', run s (shutdown s) = Ok s' [] ∧
                hGeneral s' = Exited ∧ hVoting s' = Exited) as (s' & Hsh & Xg & Xv).
  { pose proof Hinv as (Hst & _).
    destruct (Stop_started_ok (client s) Hst) as (c' & Hstop & _ & _ & _ & _ & Hq).
    unfold shutdown. cbn [run step]. rewrite Hstop.
    assert (step s CallStop = Ok (set_client c' s) []) as Hstep0 by (simpl; by rewrite Hstop).
    destruct (step_invariant _ _ _ _ Hinv Hstep0) as (Hinv0 & _).
    set (s0 := set_client c' s) in *.
    assert (quit (client s0) = Closed) as Hq0 by done.
    change (hGeneral s) with (hGeneral s0). change (hVoting s) with (hVoting s0).
    clearbody s0. clear Hstep0 Hstop.
    destruct (hGeneral s0) as [lg|] eqn:Hg.
    - destruct (step_LoopQuit s0 General (lq lg) Hinv0 Hq0) as (s1 & Hstep1 & Xg1 & _).
      { simpl. by rewrite Hg. }
      cbn [app run]. rewrite Hstep1.
      destruct (step_invariant _ _ _ _ Hinv0 Hstep1) as (Hinv1 & _).
      pose proof (step_later _ _ _ _ Hstep1) as (Lq & _).
      assert (hVoting s1 = hVoting s0) as Hv1.
      { revert Hstep1. simpl. unfold iterGeneral. rewrite Hg. simpl. rewrite Hq0.
        destruct (handlerExit (client s0)); [|done]. by intros [= <-]. }
      simpl in Xg1. destruct (hGeneral s1) eqn:Hg1; [done|].
      destruct (hVoting s0) as [lv|] eqn:Hv.
      + destruct (step_LoopQuit s1 Voting lv Hinv1 (Lq Hq0)) as (s2 & Hstep2 & Xv2 & _).
        { simpl. by rewrite Hv1. }
        cbn [run]. rewrite Hstep2. exists s2. split; [done|]. split; [|done].
        revert Hstep2. simpl. unfold iterVoting. rewrite Hv1. simpl. rewrite (Lq Hq0).
        destruct (handlerVotingExit (client s1)); [|done]. by intros [= <-].
      + exists s1. simpl. split; [done|]. split; [done|]. by rewrite Hv1.
    - destruct (hVoting s0) as [lv|] eqn:Hv.
      + destruct (step_LoopQuit s0 Voting lv Hinv0 Hq0) as (s2 & Hstep2 & Xv2 & _).
        { simpl. by rewrite Hv. }
        cbn [app run]. rewrite Hstep2. exists s2. split; [done|]. split; [|done].
        revert Hstep2. simpl. unfold iterVoting. rewrite Hv. simpl. rewrite Hq0.
        destruct (handlerVotingExit (client s0)); [|done]. by intros [= <-].
      + exists s0. by simpl. }
  exists s'. split; [done|]. split; [done|]. split; [done|].
  destruct (run_settled (shutdown s) s s' [] Hinv Hset Hsh) as (_ & Hw & HG & HV).
  destruct (HG Xg) as [? ?]. destruct (HV Xv) as [? _].
  split; [done|]. split; [done|]. split; [done|]. by rewrite Hw, Xg, Xv.
Qed.

(** X7.  A callback that offers nothing leaves no trace.  When
    [onRelevantTxAccepted] is given a transaction that does not decode, or
    [onSpentAndMissedTickets] a map in which every ticket is spent, the
    callback returns without sending, and the rest of the execution is exactly
    what it would have been without that notification: the client stays up
    and later events are accepted and delivered as before. *)
Theorem silent_callback_is_transparent (s : System) (n : Notification)
    (acts1 acts2 : list Action) :
  silent n →
  callback n = None ∧
  run s (acts1 ++ Notify n :: acts2) = run s (acts1 ++ acts2).
Proof.
  intros Hn.
  assert (callback n = None) as Hcb.
  { destruct n as [| |tx| | |bh h sd tk|]; simpl in Hn; try done; simpl.
    - unfold onRelevantTxAccepted. by rewrite Hn.
    - unfold onSpentAndMissedTickets. rewrite missedOf_filter. simpl.
      destruct (filter (λ p, p.2 = false) tk) as [|p l] eqn:Hf; [done|]. exfalso.
      assert (p ∈ filter (λ p, p.2 = false) tk) as Hin by (rewrite Hf; left).
      apply list_elem_of_filter in Hin as [Hp Hin]. destruct p as [t b].
      simpl in Hp. subst b. by specialize (Hn t false Hin). }
  split; [done|].
  rewrite !run_app. destruct (run s acts1) as [s1 tr1| |]; [|done|done].
  cbn [run step]. rewrite Hcb. by destruct (run s1 acts2).
Qed.

Lemma resetting_insert (p : list watcher) (i : nat) (t ch : timerChan) :
  p !! i = Some (Waiting t) →
  resetting (<[i := Resetting ch]> p) = S (resetting p).
Proof.
  revert i. induction p as [|w p IH]; intros i Hi; [done|].
  destruct i as [|i]; simpl in Hi.
  - by injection Hi as ->.
  - simpl. destruct w; by rewrite IH.
Qed.

Lemma resetting_delete (p : list watcher) (i : nat) (t : timerChan) :
  p !! i = Some (Waiting t) → resetting (delete i p) = resetting p.
Proof.
  revert i. induction p as [|w p IH]; intros i Hi; [done|].
  destruct i as [|i]; simpl in Hi.
  - by injection Hi as ->.
  - simpl. destruct w; by rewrite IH.
Qed.

Lemma step_resetting (s s' : System) (a : Action) (o : list Obs) :
  hGeneral s = Exited → step s a = Ok s' o →
  hGeneral s' = Exited ∧ (resetting (probes s) ≤ resetting (probes s'))%nat.
Proof.
  intros Hg. destruct a as [n|n|[]| |[]|d| |i err|i|i]; simpl.
  - destruct (callback n) as [[[] e]|].
    + unfold iterGeneral. by rewrite Hg.
    + unfold iterVoting. destruct (hVoting s); [|done].
      destruct (handlerVoting _ _ _); try done.
      * by intros [= <- <-].
      * destruct (handlerVotingExit _); [|done]. by intros [= <- <-].
    + by intros [= <- <-].
  - destruct (callback n); [destruct (quit (client s)); [done|]|]; by intros [= <- <-].
  - by rewrite Hg.
  - destruct (hVoting s) as [v|] eqn:Hv; [|done]. unfold iterVoting. rewrite Hv.
    destruct (handlerVoting _ _ _); try done.
    + by intros [= <- <-].
    + destruct (handlerVotingExit _); [|done]. by intros [= <- <-].
  - destruct (Stop (client s)); [|done]. by intros [= <- <-].
  - unfold iterGeneral. by rewrite Hg.
  - unfold iterVoting. destruct (hVoting s); [|done].
    destruct (handlerVoting _ _ _); try done.
    + by intros [= <- <-].
    + destruct (handlerVotingExit _); [|done]. by intros [= <- <-].
  - destruct (0 <=? d); [|done]. by intros [= <- <-].
  - unfold iterGeneral. by rewrite Hg.
  - destruct (probes s !! i) as [[t0|]|] eqn:Hi; try done.
    destruct (match err with Some _ => Stop (client s) | None => Some (client s) end);
      [|done].
    intros [= <- <-]. simpl. split; [done|].
    rewrite (resetting_insert _ _ t0) by done. lia.
  - destruct (probes s !! i) as [[[t0|]|]|] eqn:Hi; try done.
    destruct (t0 <=? clock s); [|done]. destruct (Stop (client s)); [|done].
    intros [= <- <-]. simpl. split; [done|].
    by rewrite (resetting_delete _ _ (Armed t0)).
  - destruct (probes s !! i) as [[]|]; try done. unfold iterGeneral. by rewrite Hg.
Qed.

(** X8.  A probe watcher can be left blocked for ever.  The watcher sends a
    fresh timer on [pingChanReset] after every answer, also after an error
    has made it call [Stop]; only [handler] receives from that channel.  So
    once [handler] has left, no step completes such a send: along every
    execution the number of watchers blocked in it never goes down, and the
    send of any one of them cannot be taken. *)
Theorem watcher_blocked_after_exit (s s' : System) (acts : list Action)
    (tr : list Obs) (i : nat) :
  hGeneral s = Exited →
  run s acts = Ok s' tr →
  hGeneral s' = Exited ∧
  (resetting (probes s) ≤ resetting (probes s'))%nat ∧
  step s' (PingReset i) = Stuck.
Proof.
  revert s tr. induction acts as [|a acts IH]; intros s tr Hg; simpl.
  - intros [= <- <-]. split; [done|]. split; [done|].
    destruct (probes s !! i) as [[]|]; try done. unfold iterGeneral. by rewrite Hg.
  - destruct (step s a) as [s1 o| |] eqn:Hstep; [|done|done].
    destruct (run s1 acts) as [s2 o'| |] eqn:Hrun; [|done|done].
    intros [= <- <-]. destruct (step_resetting s s1 a o Hg Hstep) as (Hg1 & Hle).
    destruct (IH s1 o' Hg1 Hrun) as (Hg2 & Hle2 & Hstuck).
    split; [done|]. split; [lia|done].
Qed.

(** ** The loops on their own

    A loop run by itself over the sequence of select cases that fire.  Here,
    unlike in a session, the intake channel may be found closed. *)

(** The event a loop received when case [sel] fired with outcome [r]. *)
Definition gotBy {L : Type} (sel : selectCase) (r : iter L) : list Event :=
  match sel, r with
  | CaseEnqueue (Some n), Continue _ => [n]
  | _, _ => []
  end.

(** The value a loop with queue [s] sent when case [sel] fired. *)
Definition gaveBy (sel : selectCase) (s : queue) : list (option Event) :=
  match sel with
  | CaseDequeue => if dequeue s then [next s] else []
  | _ => []
  end.

(** The outcome of an iteration, seen on the queue of the locals. *)
Definition onQueue {L : Type} (q : L → queue) (r : iter L) : iter queue :=
  match r with
  | Continue s' => Continue (q s')
  | BreakOut => BreakOut
  | NotReady => NotReady
  | Panics => Panics
  end.

(** The run of a loop with locals [L], whose queue is [q s], over cases [xs];
    [sel x] is the select case of [x].  It stops at the first iteration that
    does not continue, and gives that outcome with the events received and
    the values sent.  A send has happened as soon as its case fires. *)
Fixpoint runLoop {L X : Type} (f : L → X → iter L) (q : L → queue)
    (sel : X → selectCase) (s : L) (xs : list X)
  : iter L * list Event * list (option Event) :=
  match xs with
  | [] => (Continue s, [], [])
  | x :: rest =>
      let r := f s x in
      let a := gotBy (sel x) r in
      let d := gaveBy (sel x) (q s) in
      match r with
      | Continue s' =>
          let '(r', a', d') := runLoop f q sel s' rest in (r', a ++ a', d ++ d')
      | _ => (r, a, d)
      end
  end.

(** [handlerVoting] over a sequence of cases. *)
Definition runVoting (quit : chan) (s : queue) (sels : list selectCase)
  : iter queue * list Event * list (option Event) :=
  runLoop (handlerVoting quit) id id s sels.

(** [handler] over a sequence of cases, each with the instant it fires at. *)
Definition runHandler (quit : chan) (s : locals) (sels : list (Z * selectCase))
  : iter locals * list Event * list (option Event) :=
  runLoop (λ s x, handler x.1 quit s x.2) lq snd s sels.

(** The invariant of the locals of a loop: the output variable is nil exactly
    when nothing is buffered, and otherwise [next] is the oldest event. *)
Definition queue_wf (s : queue) : Prop :=
  match notifications s with
  | [] => dequeue s = false
  | n :: _ => dequeue s = true ∧ next s = Some n
  end.

(** What one iteration must do to the queue [s], having received [a] and
    sent [d], for the loop to be a queue. *)
Definition iter_fifo (quit : chan) (s : queue) (r : iter queue)
    (a : list Event) (d : list (option Event)) : Prop :=
  match r with
  | Continue s' =>
      queue_wf s' ∧ Some <$> (notifications s ++ a) = d ++ (Some <$> notifications s')
  | BreakOut =>
      (∃ pending, Some <$> (notifications s ++ a) = d ++ (Some <$> pending)) ∧
      (quit = Open → Some <$> (notifications s ++ a) = d)
  | NotReady => a = [] ∧ d = []
  | Panics => False
  end.

Lemma received_wf (n : Event) (s : queue) :
  queue_wf s →
  queue_wf (received n s) ∧ notifications (received n s) = notifications s ++ [n].
Proof. unfold queue_wf, received. by destruct s as [[|m l] enq deq nxt]. Qed.

Lemma handlerVoting_fifo (quit : chan) (s : queue) (sel : selectCase) :
  queue_wf s →
  iter_fifo quit s (onQueue id (handlerVoting quit s sel))
    (gotBy sel (handlerVoting quit s sel)) (gaveBy sel s).
Proof.
  intros Hwf. unfold gotBy, gaveBy, onQueue.
  destruct sel as [[n|]| | |ch|]; simpl.
  - destruct (enqueue s); [|done]. cbn [iter_fifo].
    destruct (received_wf n s Hwf) as (Hwf' & Hn). split; [done|]. by rewrite Hn.
  - destruct (enqueue s); [|done]. unfold intakeClosed, queue_wf in *.
    destruct s as [[|m l] enq deq nxt]; simpl in *.
    + split; [by exists []|done].
    + split; [done|]. by rewrite app_nil_r.
  - destruct (dequeue s) eqn:Hd; [|done]. unfold sent, queue_wf in *.
    destruct s as [[|m l] enq deq nxt]; simpl in *; [congruence|].
    destruct Hwf as (_ & ->). destruct l as [|m' l]; simpl.
    + destruct enq; simpl; [done|]. split; [by exists []|done].
    + rewrite app_nil_r. split; [|done]. unfold queue_wf. by simpl.
  - done.
  - done.
  - destruct quit; simpl; [done|]. split; [|done].
    exists (notifications s). by rewrite app_nil_r.
Qed.

Lemma handler_fifo (now : Z) (quit : chan) (s : locals) (sel : selectCase) :
  queue_wf (lq s) →
  iter_fifo quit (lq s) (onQueue lq (handler now quit s sel))
    (gotBy sel (handler now quit s sel)) (gaveBy sel (lq s)).
Proof.
  intros Hwf. pose proof (handlerVoting_fifo quit (lq s) sel Hwf) as Hv.
  unfold gotBy, gaveBy, onQueue in *.
  destruct sel as [[n|]| | |ch|]; simpl in *.
  - by destruct (enqueue (lq s)).
  - destruct (enqueue (lq s)); [|done]. by destruct (intakeClosed (lq s)).
  - destruct (dequeue (lq s)); [|done]. by destruct (sent (lq s)).
  - destruct (pingChan s) as [t|]; [|done]. destruct (t <=? now); [|done].
    simpl. split; [done|]. by rewrite app_nil_r.
  - split; [done|]. by rewrite app_nil_r.
  - by destruct quit.
Qed.

Lemma runLoop_fifo {L X : Type} (f : L → X → iter L) (q : L → queue)
    (sel : X → selectCase) (quit : chan) :
  (∀ s x, queue_wf (q s) →
     iter_fifo quit (q s) (onQueue q (f s x)) (gotBy (sel x) (f s x))
       (gaveBy (sel x) (q s))) →
  ∀ xs s, queue_wf (q s) →
    (runLoop f q sel s xs).1.1 ≠ Panics ∧
    ∃ pending,
      Some <$> (notifications (q s) ++ (runLoop f q sel s xs).1.2)
        = (runLoop f q sel s xs).2 ++ (Some <$> pending) ∧
      (∀ s', (runLoop f q sel s xs).1.1 = Continue s' →
         queue_wf (q s') ∧ pending = notifications (q s')) ∧
      ((runLoop f q sel s xs).1.1 = BreakOut → quit = Open → pending = []).
Proof.
  intros Hf xs. induction xs as [|x rest IH]; intros s Hwf.
  - simpl. split; [done|]. exists (notifications (q s)).
    split; [by rewrite app_nil_r|]. split; [by intros s' [= <-]|done].
  - specialize (Hf s x Hwf). cbn [runLoop].
    unfold onQueue in Hf. destruct (f s x) as [s1| | |] eqn:Hfx; simpl in Hf.
    + destruct Hf as (Hwf1 & Hstep). destruct (IH s1 Hwf1) as (Hnp & pending & Heq & Hc & Hb).
      destruct (runLoop f q sel s1 rest) as [[r' a'] d']. simpl in *.
      split; [done|]. exists pending. split; [|done].
      rewrite app_assoc, fmap_app, Hstep, <- !app_assoc. f_equal.
      by rewrite <- fmap_app.
    + destruct Hf as ((pending & Heq) & Hopen). simpl. split; [done|].
      destruct quit.
      * exists []. split; [by rewrite app_nil_r, (Hopen eq_refl)|done].
      * exists pending. split; [done|]. done.
    + destruct Hf as (-> & ->). simpl. split; [done|].
      exists (notifications (q s)). split; [by rewrite app_nil_r|done].
    + done.
Qed.

(** X9.  Each loop on its own is a FIFO queue, also when its intake channel
    is closed under it.  For every sequence of select cases, from the initial
    locals: the loop never panics (it never indexes an empty buffer); the
    values it sent, followed by some pending events, are exactly the events
    it received, in order; while it runs the pending events are its buffer;
    and when it breaks out with the terminal signal still open, which it
    only does once its intake is closed, nothing is pending: everything it
    received has been sent. *)
Theorem loops_are_fifo (quit : chan) (now : Z)
    (sels : list selectCase) (tsels : list (Z * selectCase)) :
  ((runVoting quit queue0 sels).1.1 ≠ Panics ∧
   ∃ pending,
     (runVoting quit queue0 sels).2 ++ (Some <$> pending)
       = Some <$> (runVoting quit queue0 sels).1.2 ∧
     (∀ s', (runVoting quit queue0 sels).1.1 = Continue s' →
        pending = notifications s') ∧
     ((runVoting quit queue0 sels).1.1 = BreakOut → quit = Open → pending = [])) ∧
  ((runHandler quit (locals0 now) tsels).1.1 ≠ Panics ∧
   ∃ pending,
     (runHandler quit (locals0 now) tsels).2 ++ (Some <$> pending)
       = Some <$> (runHandler quit (locals0 now) tsels).1.2 ∧
     (∀ s', (runHandler quit (locals0 now) tsels).1.1 = Continue s' →
        pending = notifications (lq s')) ∧
     ((runHandler quit (locals0 now) tsels).1.1 = BreakOut → quit = Open →
        pending = [])).
Proof.
  split.
  - destruct (runLoop_fifo (handlerVoting quit) id id quit
                (λ s x, handlerVoting_fifo quit s x) sels queue0)
      as (Hnp & pending & Heq & Hc & Hb); [done|].
    split; [done|]. exists pending. split; [symmetry; exact Heq|].
    split; [|done]. intros s' Hs'. by destruct (Hc s' Hs').
  - destruct (runLoop_fifo (λ s x, handler x.1 quit s x.2) lq snd quit
                (λ s x, handler_fifo x.1 quit s x.2) tsels (locals0 now))
      as (Hnp & pending & Heq & Hc & Hb); [done|].
    split; [done|]. exists pending. split; [symmetry; exact Heq|].
    split; [|done]. intros s' Hs'. by destruct (Hc s' Hs').
Qed.

Lemma drain_closed_Voting (quit : chan) (l : list Event) (s : queue) :
  queue_wf s → enqueue s = false → notifications s = l → l ≠ [] →
  runVoting quit s (replicate (length l) CaseDequeue) = (BreakOut, [], Some <$> l).
Proof.
  revert s. induction l as [|n l IH]; intros [ns enq deq nxt] Hwf He Hn Hne; [done|].
  unfold queue_wf in Hwf. simpl in *. subst ns enq. destruct Hwf as (-> & ->).
  unfold runVoting in *. cbn [length replicate runLoop id].
  destruct l as [|m l].
  - reflexivity.
  - specialize (IH (mkQueue (m :: l) false true (Some m))).
    change (handlerVoting quit (mkQueue (n :: m :: l) false true (Some n)) CaseDequeue)
      with (Continue (mkQueue (m :: l) false true (Some m))).
    cbv iota. rewrite IH; done.
Qed.

Lemma drain_closed_Handler (quit : chan) (now : Z) (l : list Event) (s : locals) :
  queue_wf (lq s) → enqueue (lq s) = false → notifications (lq s) = l → l ≠ [] →
  runHandler quit s (replicate (length l) (now, CaseDequeue))
  = (BreakOut, [], Some <$> l).
Proof.
  revert s. induction l as [|n l IH]; intros [[ns enq deq nxt] pc] Hwf He Hn Hne; [done|].
  unfold queue_wf in Hwf. simpl in *. subst ns enq. destruct Hwf as (-> & ->).
  unfold runHandler in *. cbn [length replicate runLoop snd fst].
  destruct l as [|m l].
  - reflexivity.
  - specialize (IH (mkLocals (mkQueue (m :: l) false true (Some m)) pc)).
    change (handler now quit (mkLocals (mkQueue (n :: m :: l) false true (Some n)) pc)
              CaseDequeue)
      with (Continue (mkLocals (mkQueue (m :: l) false true (Some m)) pc)).
    cbv iota. rewrite IH; done.
Qed.

(** X10.  Draining on a closed intake.  When a loop whose locals are well
    formed finds its intake channel closed, it breaks out at once if its
    buffer is empty; otherwise it stops receiving and goes on until the
    consumer has taken, in order, every event of the buffer, and breaks out
    on the last one.  Both loops do so, with the terminal signal open or
    closed. *)
Theorem intake_closed_drains (quit : chan) (now : Z) (s : locals) :
  queue_wf (lq s) → enqueue (lq s) = true →
  runVoting quit (lq s)
    (CaseEnqueue None :: replicate (length (notifications (lq s))) CaseDequeue)
  = (BreakOut, [], Some <$> notifications (lq s)) ∧
  runHandler quit s
    ((now, CaseEnqueue None)
       :: replicate (length (notifications (lq s))) (now, CaseDequeue))
  = (BreakOut, [], Some <$> notifications (lq s)) ∧
  (notifications (lq s) ≠ [] →
     ∃ s', handler now quit s (CaseEnqueue None) = Continue s' ∧
           notifications (lq s') = notifications (lq s) ∧
           pingChan s' = pingChan s ∧
           ∀ r, handler now quit s' (CaseEnqueue r) = NotReady ∧
                handlerVoting quit (lq s') (CaseEnqueue r) = NotReady).
Proof.
  intros Hwf He. destruct s as [[l enq deq nxt] pc]. simpl in *. subst enq.
  destruct l as [|n l].
  - by repeat split.
  - unfold queue_wf in Hwf. simpl in Hwf. destruct Hwf as (-> & ->).
    split; [|split].
    + pose proof (drain_closed_Voting quit (n :: l)
                    (mkQueue (n :: l) false true (Some n))) as Hd.
      unfold runVoting in *. cbn [runLoop id].
      change (handlerVoting quit (mkQueue (n :: l) true true (Some n)) (CaseEnqueue None))
        with (Continue (mkQueue (n :: l) false true (Some n))).
      cbv iota. rewrite Hd; done.
    + pose proof (drain_closed_Handler quit now (n :: l)
                    (mkLocals (mkQueue (n :: l) false true (Some n)) pc)) as Hd.
      unfold runHandler in *. cbn [runLoop snd fst].
      change (handler now quit (mkLocals (mkQueue (n :: l) true true (Some n)) pc)
                (CaseEnqueue None))
        with (Continue (mkLocals (mkQueue (n :: l) false true (Some n)) pc)).
      cbv iota. rewrite Hd; done.
    + intros _. eexists. split; [reflexivity|]. by simpl.
Qed.

(** ** The idle timer and the voting stream, and a client started after it
    was stopped *)

(** The steps of a session in which only the voting stream is active and
    time passes. *)
Definition voting_only (a : Action) : bool :=
  match a with
  | Notify (OnWinningTickets _ _ _) | Consume Voting | Elapse _ => true
  | _ => false
  end.

Lemma step_voting_only (s s' : System) (a : Action) (o : list Obs) :
  voting_only a = true → step s a = Ok s' o →
  hGeneral s' = hGeneral s ∧ probes s' = probes s ∧ client s' = client s ∨
  hGeneral s' = hGeneral s ∧ probes s' = probes s ∧ hVoting s' = Exited.
Proof.
  destruct a as [[]|n|[]| |[]|d| |i err|i|i]; try done; intros _; simpl.
  - unfold onWinningTickets, iterVoting. destruct (hVoting s); [|done].
    destruct (handlerVoting _ _ _); try done.
    + intros [= <- <-]. by left.
    + destruct (handlerVotingExit _); [|done]. intros [= <- <-]. by right.
  - destruct (hVoting s) as [v|] eqn:Hv; [|done]. unfold iterVoting. rewrite Hv.
    destruct (handlerVoting _ _ _); try done.
    + intros [= <- <-]. by left.
    + destruct (handlerVotingExit _); [|done]. intros [= <- <-]. by right.
  - destruct (0 <=? d); [|done]. intros [= <- <-]. by left.
Qed.

Lemma run_voting_only (acts : list Action) (s0 s : System) (tr : list Obs) :
  forallb voting_only acts = true → run s0 acts = Ok s tr →
  hGeneral s = hGeneral s0 ∧ probes s = probes s0.
Proof.
  revert s0 tr. induction acts as [|a acts IH]; intros s0 tr Hall; simpl.
  - by intros [= <- <-].
  - simpl in Hall. apply andb_prop in Hall as [Ha Hall].
    destruct (step s0 a) as [s1 o| |] eqn:Hstep; [|done|done].
    destruct (run s1 acts) as [s2 o'| |] eqn:Hrun; [|done|done].
    intros [= <- <-]. destruct (IH s1 o' Hall Hrun) as [-> ->].
    by destruct (step_voting_only s0 s1 a o Ha Hstep) as [(? & ? & _)|(? & ? & _)].
Qed.

(** X11.  Winning tickets are not activity.  The idle timer belongs to
    [handler] alone: in an execution in which only winning-ticket
    notifications arrive, the voting consumer reads and time passes, the
    locals of [handler] stay exactly as they were at the start, timer
    included, and no probe is in flight; so as soon as 60 s have passed the
    ping case can fire and a probe is issued, however many voting events
    were delivered in between. *)
Theorem winning_tickets_do_not_reset_the_timer (c : RPCClient) (now : Z)
    (acts : list Action) (s : System) (tr : list Obs) :
  forallb voting_only acts = true →
  run (session c now) acts = Ok s tr →
  hGeneral s = Running (locals0 now) ∧
  probes s = [] ∧
  (now + Minute ≤ clock s →
     ∃ s', step s PingFire = Ok s' [] ∧
           probes s' = [Waiting (Armed (clock s + Minute))]).
Proof.
  intros Hall Hrun.
  destruct (run_voting_only acts (session c now) s tr Hall Hrun) as [Hg Hp].
  simpl in Hg, Hp.
  split; [done|]. split; [done|]. intros Hlate.
  simpl. unfold iterGeneral. rewrite Hg. simpl.
  replace (now + Minute <=? clock s) with true by (symmetry; apply Z.leb_le; lia).
  eexists. split; [done|]. simpl. by rewrite Hp.
Qed.

(** X12.  [Start] does not look at the terminal signal.  On a client that
    was stopped before it was ever started, [Stop] has closed both output
    channels; [Start] answers as on a client that was not stopped, and if the
    server lets it succeed it launches the two loops with the terminal
    signal already closed.  The quit case is then ready in both, and the
    loop that takes it closes its output channel a second time, which
    panics. *)
Theorem Start_after_Stop_panics (srv : Server) (c c2 : RPCClient)
    (gs : list Goroutine) (now : Z) :
  started c = false → quit c = Open →
  dequeueNotification c = Open → dequeueVotingNotification c = Open →
  (∃ c1, Stop c = Some c1 ∧ Start srv c1 = (None, c2, gs)) →
  (Start srv c).1.1 = None ∧
  quit c2 = Closed ∧
  gs = [go_handler; go_handlerVoting] ∧
  step (session c2 now) (LoopQuit General) = Crash ∧
  step (session c2 now) (LoopQuit Voting) = Crash.
Proof.
  intros Hs Hq Hd Hv (c1 & Hstop & Hstart).
  assert (c1 = mkRPCClient (Client c ++ [CallShutdown]) (chainParams_Net c)
                 Closed Closed Closed (wg c) false) as ->.
  { revert Hstop. unfold Stop. destruct c as [l net d v q w b]; simpl in *. subst.
    simpl. by intros [= <-]. }
  revert Hstart. unfold Start, deferred. simpl.
  destruct (Connect srv); [done|].
  destruct (GetCurrentNet srv) as [net|e]; [|done]. simpl.
  destruct (negb (net =? chainParams_Net c)%N); [done|].
  destruct (negb (semverCompatible _ _)); [done|].
  intros [= <- <-]. by repeat split.
Qed.

End Chain.

Arguments Reply {RPCErr A} a.
Arguments Fail {RPCErr A} e.

(** ** Worked executions

    The types left open above are instantiated: a hash is a number, a
    transaction is its own bytes and does not decode when empty, and the
    errors of the transport are strings. *)

Definition decode (b : list Byte.byte) : option (list Byte.byte) :=
  match b with
  | [] => None
  | _ :: _ => Some b
  end.

Definition versions_of (v : VersionResult) : gmap string VersionResult :=
  {[ "fnodjsonrpcapi"%string := v ]}.

(** Servers on network 1 advertising 5.2.3 and 4.9.0, a server on network 2,
    and a server whose [Version] request fails. *)
Definition server_5_2_3 : @Server string :=
  mkServer None (Reply 1%N) (Reply (versions_of (mkVersionResult 5 2 3))).
Definition server_4_9_0 : @Server string :=
  mkServer None (Reply 1%N) (Reply (versions_of (mkVersionResult 4 9 0))).
Definition server_net2 : @Server string :=
  mkServer None (Reply 2%N) (Reply (versions_of (mkVersionResult 5 2 3))).
Definition server_no_version : @Server string :=
  mkServer None (Reply 1%N) (Fail "version: timeout"%string).

(** A wallet on network 1: its client as constructed, and after a successful
    [Start]. *)
Definition client0 : RPCClient := NewRPCClientConfig 1.
Definition client1 : RPCClient :=
  Eval vm_compute in (Start server_5_2_3 client0).1.2.

Definition ev_disconnected : @Notification N := OnBlockDisconnected [Byte.x01].
Definition ev_winning : @Notification N := OnWinningTickets (Some 5%N) 10 [Some 6%N].
Definition ev_sdiff : @Notification N := OnStakeDifficulty (Some 5%N) 10 3.

(** Three notifications arrive, one of them for the voting stream, and the
    consumer of the general stream receives once. *)
Definition sched1 : list (@Action N string) :=
  [Notify ev_disconnected; Notify ev_winning; Notify ev_sdiff; Consume General].

Definition outcome (r : @Result N (list Byte.byte)) (s0 : System) : System * list Obs :=
  match r with
  | Ok s tr => (s, tr)
  | _ => (s0, [])
  end.

Definition state1 : System :=
  Eval vm_compute in (outcome (run decode (session client1 0) sched1) (session client1 0)).1.
Definition trace1 : list Obs :=
  Eval vm_compute in (outcome (run decode (session client1 0) sched1) (session client1 0)).2.

(** An event is buffered, then [Stop] is called. *)
Definition sched2 : list (@Action N string) := [Notify ev_disconnected; CallStop].
Definition state2 : System :=
  Eval vm_compute in (outcome (run decode (session client1 0) sched2) (session client1 0)).1.
Definition trace2 : list Obs :=
  Eval vm_compute in (outcome (run decode (session client1 0) sched2) (session client1 0)).2.

(** An event is buffered; then [Stop] is called and the general loop takes its
    quit case. *)
Definition sched4 : list (@Action N string) := [Notify ev_disconnected].
Definition state4 : System :=
  Eval vm_compute in (outcome (run decode (session client1 0) sched4) (session client1 0)).1.
Definition trace4 : list Obs :=
  Eval vm_compute in (outcome (run decode (session client1 0) sched4) (session client1 0)).2.
Definition sched5 : list (@Action N string) := [LoopQuit General].
Definition state5 : System :=
  Eval vm_compute in (outcome (run decode state4 (CallStop :: sched5)) state4).1.
Definition trace5 : list Obs :=
  Eval vm_compute in (outcome (run decode state4 (CallStop :: sched5)) state4).2.

(** A winning-tickets event is accepted, [Stop] is called, and the voting loop
    takes its quit case. *)
Definition sched6 : list (@Action N string) :=
  [Notify ev_winning; CallStop; LoopQuit Voting].
Definition state6 : System :=
  Eval vm_compute in (outcome (run decode (session client1 0) sched6) (session client1 0)).1.
Definition trace6 : list Obs :=
  Eval vm_compute in (outcome (run decode (session client1 0) sched6) (session client1 0)).2.

(** Sixty-one seconds pass without an event, the probe is issued, and its
    answer is awaited. *)
Definition sched3 : list (@Action N string) := [Elapse (61 * Second); PingFire].
Definition state3 : System :=
  Eval vm_compute in (outcome (run decode (session client1 0) sched3) (session client1 0)).1.
Definition trace3 : list Obs :=
  Eval vm_compute in (outcome (run decode (session client1 0) sched3) (session client1 0)).2.

(** The model at work. *)

Example start_then_stop :
  Start server_5_2_3 client0 = (None, client1, [go_handler; go_handlerVoting]) ∧
  Stop client1 = Some (set_quit Closed (call CallShutdown client1)).
Proof. split; vm_compute; reflexivity. Qed.

Example general_stream_in_order :
  trace1 = [Accepted General (blockDisconnected [Byte.x01]);
            Accepted Voting (winningTickets (Some 5%N) 10 [Some 6%N]);
            Accepted General (stakeDifficulty (Some 5%N) 10 3);
            Delivered General (Some (blockDisconnected [Byte.x01]))].
Proof. reflexivity. Qed.

Example undecodable_transaction_is_dropped :
  run (Hash := N) (RPCErr := string) decode (session client1 0)
    [Notify (OnRelevantTxAccepted []); Notify (OnRelevantTxAccepted [Byte.x02])]
  = Ok (mkSystem client1
          (Running (mkLocals
             (mkQueue [relevantTxAccepted [Byte.x02]] true true
                (Some (relevantTxAccepted [Byte.x02])))
             (Armed Minute)))
          (Running queue0) [] 0)
       [Accepted General (relevantTxAccepted [Byte.x02])].
Proof. vm_compute; reflexivity. Qed.

Example idle_session_shuts_itself_down :
  ∃ s, run (Hash := N) (RPCErr := string) decode (session client1 0)
         [Elapse Minute; PingFire; Elapse Minute; ProbeTimeout 0;
          LoopQuit General; LoopQuit Voting] = Ok s [] ∧
       client s = mkRPCClient
                    [CallConnect; CallGetCurrentNet; CallVersion; CallSession; CallShutdown]
                    1 Closed Closed Closed 0 true ∧
       hGeneral s = Exited ∧ hVoting s = Exited.
Proof. eexists. split; [vm_compute; reflexivity|]. by split. Qed.

Example buffered_event_lost_when_general_loop_quits :
  buffered General state4 = [blockDisconnected [Byte.x01]] ∧
  run (RPCErr := string) decode state4 (CallStop :: sched5) = Ok state5 trace5 ∧
  trace5 = [] ∧
  hGeneral state5 = Exited ∧
  dequeueNotification (client state5) = Closed.
Proof. repeat split; vm_compute; reflexivity. Qed.

Example accepted_event_lost_when_voting_loop_quits :
  run (RPCErr := string) decode (session client1 0) sched6 = Ok state6 trace6 ∧
  trace6 = [Accepted Voting (winningTickets (Some 5%N) 10 [Some 6%N])] ∧
  hVoting state6 = Exited ∧
  dequeueVotingNotification (client state6) = Closed.
Proof. repeat split; vm_compute; reflexivity. Qed.

Lemma fifo_delivery_witness :
  ∃ pending,
    delivered General trace1 ++ (Some <$> pending) = Some <$> accepted General trace1 ∧
    pending = [stakeDifficulty (Some 5%N) 10 3].
Proof.
  destruct (fifo_delivery decode client1 0 sched1 state1 trace1 General)
    as (pending & Hp & Hr).
  - repeat split; simpl; lia.
  - vm_compute; reflexivity.
  - exists pending. split; [exact Hp|].
    destruct (Hr _ eq_refl) as [Hpending _]. exact Hpending.
Defined.

(** C1, as stated, fails: a winning-tickets event is accepted by the voting
    loop, [Stop] is called and the loop takes its quit case; whatever happens
    next, the consumer never receives the event. *)
Lemma every_accepted_event_is_delivered_counterexample :
  ¬ @every_accepted_event_is_delivered N (list Byte.byte) decode string.
Proof.
  intros Hclaim.
  destruct (Hclaim client1 0 sched6 state6 trace6 Voting)
    as (acts' & s' & tr' & Hrun & Hdel).
  - repeat split; simpl; lia.
  - vm_compute; reflexivity.
  - assert (invariant state6) as Hinv.
    { pose proof (run_sound decode sched6 (session client1 0)) as Hs.
      change (run decode (session client1 0) sched6) with (Ok state6 trace6) in Hs.
      apply Hs. apply session_invariant. repeat split; simpl; lia. }
    pose proof (run_sound decode acts' state6 Hinv) as Hs. rewrite Hrun in Hs.
    destruct Hs as (_ & He). destruct (He Voting) as (_ & _ & Hx & _).
    destruct (Hx eq_refl) as (_ & Ha & Hd).
    rewrite accepted_app, delivered_app, Ha, Hd in Hdel. discriminate Hdel.
Qed.

(** C2, as stated, fails: with one event buffered when [Stop] is called, the
    general loop takes its quit case and closes its output channel, and the
    event has not been delivered. *)
Lemma drains_before_closing_counterexample :
  ¬ @drains_before_closing N (list Byte.byte) decode string.
Proof.
  intros Hclaim.
  destruct (Hclaim client1 0 sched4 sched5 state4 state5 trace4 trace5 General)
    as [rest Hrest].
  - repeat split; simpl; lia.
  - vm_compute; reflexivity.
  - vm_compute; reflexivity.
  - reflexivity.
  - discriminate Hrest.
Qed.

Lemma quit_closes_without_draining_witness :
  buffered General state2 = [blockDisconnected [Byte.x01]] ∧
  ∃ s', step (RPCErr := string) decode state2 (LoopQuit General) = Ok s' [] ∧
        loop General s' = Exited ∧
        dequeueNotification (client s') = Closed.
Proof.
  split; [reflexivity|].
  destruct (quit_closes_without_draining decode client1 0 sched2 state2 trace2 General
              (mkQueue [blockDisconnected [Byte.x01]] true true
                 (Some (blockDisconnected [Byte.x01]))))
    as (_ & _ & Hquit & _).
  - repeat split; simpl; lia.
  - vm_compute; reflexivity.
  - reflexivity.
  - destruct (Hquit eq_refl) as (s' & Hstep & Hx & Ho & _).
    exists s'. split; [exact Hstep|]. split; [exact Hx|exact Ho].
Defined.

Lemma Stop_idempotent_witness :
  ∃ c', Stop client0 = Some c' ∧ Stops 4 client0 = Some c' ∧
        Client c' = [CallShutdown].
Proof.
  destruct (Stop_idempotent decode client0 3 client1 0 sched1)
    as ((c' & Hstop & _ & _ & Hstops & Hlog) & _).
  - intros _ _. split; reflexivity.
  - repeat split; simpl; lia.
  - exists c'. split; [exact Hstop|]. split; [exact Hstops|exact Hlog].
Defined.


Lemma onSpentAndMissedTickets_unspent_witness :
  @onSpentAndMissedTickets N (list Byte.byte) (Some 9%N) 10 3 [(2%N, true); (1%N, false)]
  = Some (General, missedTickets (Some 9%N) 10 [Some 1%N]).
Proof.
  destruct (@onSpentAndMissedTickets_unspent N (list Byte.byte) _ _
              {[1%N := false; 2%N := true]} [(2%N, true); (1%N, false)]
              (Some 9%N) 10 3) as (_ & _ & Hex).
  - vm_compute; reflexivity.
  - apply (Hex 1%N 2%N); [discriminate|reflexivity].
Defined.

Lemma Start_API_version_witness :
  (Start server_4_9_0 client0).1.1
  = Some (E op None (IncompatibleAPI (mkSemver 4 9 0) (mkSemver 5 0 0))).
Proof.
  destruct (Start_API_version server_4_9_0 client0
              (versions_of (mkVersionResult 4 9 0))) as (Hold & _).
  - reflexivity.
  - reflexivity.
  - reflexivity.
  - rewrite Hold; [reflexivity|]. vm_compute; reflexivity.
Defined.

Lemma Start_mismatched_networks_witness :
  ∃ c', Start server_net2 client0
          = (Some (E op None (Message "mismatched networks")), c', []) ∧
        started c' = false ∧
        Client c' = [CallConnect; CallGetCurrentNet; CallDisconnect].
Proof.
  destruct (Start_mismatched_networks server_net2 client0 2)
    as (c' & Hstart & Hs & _ & _ & Hlog).
  - reflexivity.
  - reflexivity.
  - discriminate.
  - exists c'. split; [exact Hstart|]. split; [exact Hs|exact Hlog].
Defined.

Lemma liveness_probe_witness :
  step (Hash := N) (RPCErr := string) decode (session client1 (61 * Second)) PingFire
    = Stuck ∧
  ∃ s', step (RPCErr := string) decode state3 (ProbeTimeout 0) = Stuck ∧
        step decode state3 (ProbeAnswer 0 (Some "eof"%string)) = Ok s' [] ∧
        quit (client s') = Closed.
Proof.
  split.
  - destruct (liveness_probe (Hash := N) (RPCErr := string) decode client1
                (61 * Second) [] (session client1 (61 * Second)) []
                (locals0 (61 * Second)))
      as (_ & _ & _ & Hfire & _).
    + repeat split; simpl; lia.
    + reflexivity.
    + reflexivity.
    + destruct (Hfire (61 * Second + Minute)) as (Hearly & _); [reflexivity|].
      apply Hearly. vm_compute; reflexivity.
  - destruct (liveness_probe decode client1 0 sched3 state3 trace3
                (mkLocals queue0 Spent)) as (_ & _ & _ & _ & Hprobe).
    + repeat split; simpl; lia.
    + vm_compute; reflexivity.
    + reflexivity.
    + destruct (Hprobe 0%nat (61 * Second + Minute)) as (Herr & Hearly & _ & _);
        [vm_compute; reflexivity|].
      destruct (Herr "eof"%string) as (s' & Hstep & Hq).
      exists s'. split; [|split; [exact Hstep|exact Hq]].
      apply Hearly. vm_compute; reflexivity.
Defined.

Lemma Stop_closes_outputs_unless_started_witness :
  ∃ c', Stop client0 = Some c' ∧
        dequeueNotification c' = Closed ∧ dequeueVotingNotification c' = Closed.
Proof.
  destruct (Stop client0) as [c'|] eqn:Hstop; [|discriminate Hstop].
  destruct (Stop_closes_outputs_unless_started client0 c' server_net2)
    as (_ & Hnever & _).
  - reflexivity.
  - exact Hstop.
  - destruct (Hnever eq_refl) as (_ & _ & Hd & Hv).
    exists c'. split; [reflexivity|]. split; [exact Hd|exact Hv].
Defined.

Lemma Start_Version_fails_witness :
  (Start server_no_version client0).1.1
  = Some (E op None (IncompatibleAPI (mkSemver 0 0 0) (mkSemver 5 0 0))).
Proof.
  rewrite (Start_Version_fails server_no_version client0 "version: timeout"%string).
  - reflexivity.
  - reflexivity.
  - reflexivity.
  - reflexivity.
Defined.

(** ** Further worked executions *)

(** A probe is answered with an error, and [handler] takes its quit case
    before it receives the timer the watcher sends. *)
Definition sched7 : list (@Action N string) :=
  [Elapse Minute; PingFire; ProbeAnswer 0 (Some "eof"%string); LoopQuit General].
Definition state7 : System :=
  Eval vm_compute in (outcome (run decode (session client1 0) sched7) (session client1 0)).1.
Definition trace7 : list Obs :=
  Eval vm_compute in (outcome (run decode (session client1 0) sched7) (session client1 0)).2.

(** Then the voting loop takes its quit case too. *)
Definition sched8 : list (@Action N string) := [LoopQuit Voting].
Definition state8 : System :=
  Eval vm_compute in (outcome (run decode state7 sched8) state7).1.

(** A winning-tickets event is accepted and delivered while a minute passes. *)
Definition sched9 : list (@Action N string) :=
  [Notify ev_winning; Elapse Minute; Consume Voting].
Definition state9 : System :=
  Eval vm_compute in (outcome (run decode (session client1 0) sched9) (session client1 0)).1.
Definition trace9 : list Obs :=
  Eval vm_compute in (outcome (run decode (session client1 0) sched9) (session client1 0)).2.

(** The client stopped before it was started, and started after that. *)
Definition client_stopped : RPCClient :=
  Eval vm_compute in default client0 (Stop client0).
Definition client_restarted : RPCClient :=
  Eval vm_compute in (Start server_5_2_3 client_stopped).1.2.

(** The locals of [handler] holding two events. *)
Definition locals2 : @locals N (list Byte.byte) :=
  mkLocals
    (mkQueue [blockDisconnected [Byte.x01]; stakeDifficulty (Some 5%N) 10 3]
       true true (Some (blockDisconnected [Byte.x01])))
    (Armed Minute).

Example leaked_watcher :
  run (RPCErr := string) decode (session client1 0) sched7 = Ok state7 trace7 ∧
  hGeneral state7 = Exited ∧
  probes state7 = [Resetting (Armed (2 * Minute))].
Proof. repeat split; vm_compute; reflexivity. Qed.

Lemma Start_version_defaults_to_zero_witness :
  Start server_no_version client0
  = Start (mkServer None (Reply 1%N) (Reply zero_versions)) client0.
Proof. apply (Start_version_defaults_to_zero server_no_version client0). exact I. Defined.

Lemma quit_is_permanent_witness :
  quit (client state5) = Closed ∧
  step (RPCErr := string) decode state5 (NotifyQuit ev_sdiff) = Ok state5 [].
Proof.
  destruct (quit_is_permanent decode state2 state5 sched5 trace5) as ((Hq & _) & Hn).
  - vm_compute; reflexivity.
  - split; [apply Hq; reflexivity|]. apply Hn. reflexivity.
Defined.

Lemma wg_counts_running_loops_witness :
  wg (client state6) = 1%nat ∧ wg (client state1) = 2%nat.
Proof.
  split.
  - destruct (wg_counts_running_loops decode client1 0 sched6 state6 trace6) as (Hw & _).
    + repeat split; simpl; lia.
    + reflexivity.
    + vm_compute; reflexivity.
    + exact Hw.
  - destruct (wg_counts_running_loops decode client1 0 sched1 state1 trace1) as (Hw & _).
    + repeat split; simpl; lia.
    + reflexivity.
    + vm_compute; reflexivity.
    + exact Hw.
Defined.

Lemma shutdown_completes_witness :
  buffered General state1 = [stakeDifficulty (Some 5%N) 10 3] ∧
  ∃ s', run (RPCErr := string) decode state1 (shutdown state1) = Ok s' [] ∧
        wg (client s') = 0%nat ∧
        dequeueNotification (client s') = Closed ∧
        dequeueVotingNotification (client s') = Closed.
Proof.
  split; [reflexivity|].
  destruct (shutdown_completes decode client1 0 sched1 state1 trace1)
    as (s' & Hrun & _ & _ & _ & Hd & Hv & Hw).
  - repeat split; simpl; lia.
  - reflexivity.
  - vm_compute; reflexivity.
  - exists s'. split; [exact Hrun|]. split; [exact Hw|]. split; [exact Hd|exact Hv].
Defined.

Lemma silent_callback_is_transparent_witness :
  run (RPCErr := string) decode (session client1 0)
    [Notify ev_disconnected; Notify (OnRelevantTxAccepted []); Consume General]
  = run (RPCErr := string) decode (session client1 0)
      [Notify ev_disconnected; Consume General].
Proof.
  apply (silent_callback_is_transparent decode (session client1 0)
           (OnRelevantTxAccepted []) [Notify ev_disconnected] [Consume General]).
  reflexivity.
Defined.

Lemma watcher_blocked_after_exit_witness :
  run (RPCErr := string) decode state7 sched8 = Ok state8 [] ∧
  (1 ≤ resetting (probes state8))%nat ∧
  step (RPCErr := string) decode state8 (PingReset 0) = Stuck.
Proof.
  destruct (watcher_blocked_after_exit decode state7 state8 sched8 [] 0)
    as (_ & Hle & Hstuck).
  - reflexivity.
  - vm_compute; reflexivity.
  - split; [vm_compute; reflexivity|]. split; [exact Hle|exact Hstuck].
Defined.

Lemma intake_closed_drains_witness :
  runHandler Open locals2
    [(0, CaseEnqueue None); (0, CaseDequeue); (0, CaseDequeue)]
  = (BreakOut, [],
     [Some (blockDisconnected [Byte.x01]); Some (stakeDifficulty (Some 5%N) 10 3)]).
Proof.
  destruct (intake_closed_drains Open 0 locals2) as (_ & Hh & _).
  - split; reflexivity.
  - reflexivity.
  - exact Hh.
Defined.

Lemma winning_tickets_do_not_reset_the_timer_witness :
  ∃ s', step (RPCErr := string) decode state9 PingFire = Ok s' [] ∧
        probes s' = [Waiting (Armed (2 * Minute))].
Proof.
  destruct (winning_tickets_do_not_reset_the_timer decode client1 0 sched9 state9 trace9)
    as (_ & _ & Hfire).
  - reflexivity.
  - vm_compute; reflexivity.
  - apply Hfire. vm_compute; discriminate.
Defined.

Lemma Start_after_Stop_panics_witness :
  Stop client0 = Some client_stopped ∧
  step (Hash := N) (MsgTx := list Byte.byte) (RPCErr := string) decode
    (session client_restarted 0) (LoopQuit General) = Crash.
Proof.
  split; [reflexivity|].
  destruct (Start_after_Stop_panics (Hash := N) (RPCErr := string) decode server_5_2_3
              client0 client_restarted [go_handler; go_handlerVoting] 0)
    as (_ & _ & _ & Hcrash & _).
  - reflexivity.
  - reflexivity.
  - reflexivity.
  - reflexivity.
  - exists client_stopped. split; vm_compute; reflexivity.
  - exact Hcrash.
Defined.

(** * Ticket fee estimation (package ticketbuyer)

    [findClosestFeeWindows] and [findTicketFeeBlocks] ask the chain server
    for fee statistics and turn them into one fee. *)

Module ticketbuyer.

(** fnoutil.Amount is an int64: arithmetic on amounts wraps. *)
Definition wrap64 (z : Z) : Z := (z + 2 ^ 63) `mod` 2 ^ 64 - 2 ^ 63.

(** Conversion to uint32, and arithmetic on uint32. *)
Definition wrap32 (z : Z) : Z := z `mod` 2 ^ 32.

Definition windowsToConsider : Z := 20.

Record diffPeriodFee := mkDiffPeriodFee {
  difficulty : Z;
  difference : Z;
  fee : Z;
}.

(** [Less] of [diffPeriodFees], on the elements themselves. *)
Definition Less (a b : diffPeriodFee) : bool := difference a <? difference b.

(** The order [sort.Sort] leaves the slice in: no element is [Less] than one
    before it. *)
Definition ascending (a b : diffPeriodFee) : Prop := difference a ≤ difference b.

(** What a function returns: a value with a nil error, or an error. *)
Inductive result (Err A : Type) :=
| Returns (a : A)
| Fails (e : Err).
Arguments Returns {Err A} a.
Arguments Fails {Err A} e.

Section Purchaser.

(** [Float] stands for float64 and [NewAmount] for fnoutil.NewAmount; [Err]
    is the type of errors, [errNotEnoughWindows] the error this file makes.
    [GetBlockHash], [GetBlockHeader] (of which only the SBits field of the
    header is used) and [TicketFeeInfo] are the requests made on
    [t.fnodChainSvr]; a nil pointer argument is [None].  [zeroUint32] is the
    package variable of that name.  [StakeDiffWindowSize] is
    [t.activeNet.StakeDiffWindowSize] and [BlocksToAvg] is
    [t.cfg.BlocksToAvg].  [Sort] is sort.Sort on [diffPeriodFees]. *)
Context {Float Err BlockHash : Type}.
Context (NewAmount : Float → result Err Z).
Context (errNotEnoughWindows : Err).

Record FeeInfoWindow := mkFeeInfoWindow {
  StartHeight : Z;
  EndHeight : Z;
  WindowMean : Float;
  WindowMedian : Float;
}.

Record FeeInfoBlock := mkFeeInfoBlock {
  BlockMean : Float;
  BlockMedian : Float;
}.

Record TicketFeeInfoResult := mkTicketFeeInfoResult {
  FeeInfoBlocks : list FeeInfoBlock;
  FeeInfoWindows : list FeeInfoWindow;
}.

Context (GetBlockHash : Z → result Err BlockHash).
Context (GetBlockHeader_SBits : BlockHash → result Err Z).
Context (TicketFeeInfo : option Z → option Z → result Err TicketFeeInfoResult).
Context (zeroUint32 : Z).
Context (StakeDiffWindowSize : Z).
Context (BlocksToAvg : Z).
Context (Sort : list diffPeriodFee → list diffPeriodFee).

(** The absolute value computed in the loop, on int64. *)
Definition absDiff (windowDiffAmt difficulty : Z) : Z :=
  let diff := wrap64 (windowDiffAmt - difficulty) in
  if diff <? 0 then wrap64 (diff * -1) else diff.

(** The first window is skipped when it is not full. *)
Definition skipped (i : nat) (w : FeeInfoWindow) : bool :=
  (i =? 0)%nat && (wrap32 (EndHeight w - StartHeight w) <? StakeDiffWindowSize).

(** The loop of [findClosestFeeWindows] over the windows from index [i] on. *)
Fixpoint windowsLoop (difficulty : Z) (useMedian : bool) (i : nat)
    (windows : list FeeInfoWindow) (sortable : list diffPeriodFee)
  : result Err (list diffPeriodFee) :=
  match windows with
  | [] => Returns sortable
  | w :: rest =>
      if skipped i w then windowsLoop difficulty useMedian (S i) rest sortable
      else
        match GetBlockHash (StartHeight w) with
        | Returns blH =>
            match GetBlockHeader_SBits blH with
            | Returns windowDiffAmt =>
                match NewAmount (if negb useMedian then WindowMean w
                                 else WindowMedian w) with
                | Returns fee =>
                    if fee =? 0 then
                      windowsLoop difficulty useMedian (S i) rest sortable
                    else
                      windowsLoop difficulty useMedian (S i) rest
                        (sortable ++ [mkDiffPeriodFee windowDiffAmt
                                        (absDiff windowDiffAmt difficulty) fee])
                | Fails e => Fails e
                end
            | Fails e => Fails e
            end
        | Fails e => Fails e
        end
  end.

Definition findClosestFeeWindows (difficulty : Z) (useMedian : bool) : result Err Z :=
  match TicketFeeInfo (Some zeroUint32) (Some (wrap32 windowsToConsider)) with
  | Returns info =>
      if (length (FeeInfoWindows info) =? 0)%nat then Fails errNotEnoughWindows
      else
        match windowsLoop difficulty useMedian 0 (FeeInfoWindows info) [] with
        | Returns sortable =>
            match Sort sortable with
            | [] => Returns 0
            | closest :: _ => Returns (fee closest)
            end
        | Fails e => Fails e
        end
  | Fails e => Fails e
  end.

(** The loop of [findTicketFeeBlocks]. *)
Fixpoint blocksLoop (useMedian : bool) (blocks : list FeeInfoBlock) (sum : Z)
  : result Err Z :=
  match blocks with
  | [] => Returns sum
  | b :: rest =>
      match NewAmount (if negb useMedian then BlockMean b else BlockMedian b) with
      | Returns tmp => blocksLoop useMedian rest (wrap64 (sum + tmp))
      | Fails e => Fails e
      end
  end.

(** [None] is the run-time panic of an integer division by zero. *)
Definition findTicketFeeBlocks (useMedian : bool) : option (result Err Z) :=
  match TicketFeeInfo (Some (wrap32 BlocksToAvg)) None with
  | Returns info =>
      match blocksLoop useMedian (FeeInfoBlocks info) 0 with
      | Returns sum =>
          if BlocksToAvg =? 0 then None
          else Some (Returns (wrap64 (sum ÷ BlocksToAvg)))
      | Fails e => Some (Fails e)
      end
  | Fails e => Some (Fails e)
  end.

(** *** Vocabulary of the properties *)

(** The statistic of a window, as an amount. *)
Definition windowFee (useMedian : bool) (w : FeeInfoWindow) : result Err Z :=
  NewAmount (if negb useMedian then WindowMean w else WindowMedian w).

(** Window [w], at index [i] of the reply, can be read: it is the first one
    and not full, or its block hash, its header and its fee are all had. *)
Definition readable (useMedian : bool) (i : nat) (w : FeeInfoWindow) : Prop :=
  skipped i w = true ∨
  ∃ blH sbits f,
    GetBlockHash (StartHeight w) = Returns blH ∧
    GetBlockHeader_SBits blH = Returns sbits ∧
    windowFee useMedian w = Returns f.

(** Window [w], at index [i], is entered in the list as [c]. *)
Definition entered (difficulty : Z) (useMedian : bool) (i : nat) (w : FeeInfoWindow)
    (c : diffPeriodFee) : Prop :=
  skipped i w = false ∧
  ∃ blH,
    GetBlockHash (StartHeight w) = Returns blH ∧
    GetBlockHeader_SBits blH = Returns (ticketbuyer.difficulty c) ∧
    windowFee useMedian w = Returns (fee c) ∧
    fee c ≠ 0 ∧
    difference c = absDiff (ticketbuyer.difficulty c) difficulty.

(** The statistic of a block, as an amount. *)
Definition blockFee (useMedian : bool) (b : FeeInfoBlock) : result Err Z :=
  NewAmount (if negb useMedian then BlockMean b else BlockMedian b).

Fixpoint sumZ (l : list Z) : Z :=
  match l with
  | [] => 0
  | x :: l' => x + sumZ l'
  end.

(** *** Properties *)

Lemma windowsLoop_entered (difficulty : Z) (useMedian : bool)
    (windows : list FeeInfoWindow) (i : nat) (sortable out : list diffPeriodFee) :
  windowsLoop difficulty useMedian i windows sortable = Returns out →
  ∀ c, c ∈ out ↔
       c ∈ sortable ∨
       ∃ k w, windows !! k = Some w ∧ entered difficulty useMedian (i + k) w c.
Proof.
  revert i sortable. induction windows as [|w rest IH]; intros i sortable; cbn [windowsLoop].
  - intros [= <-] c. split; [by left|]. intros [?|(k & w & Hk & _)]; [done|].
    by rewrite lookup_nil in Hk.
  - assert (∀ srt, windowsLoop difficulty useMedian (S i) rest srt = Returns out →
              (∀ c, c ∈ srt ↔ c ∈ sortable ∨ entered difficulty useMedian i w c) →
              ∀ c, c ∈ out ↔
                   c ∈ sortable ∨
                   ∃ k w0, (w :: rest) !! k = Some w0 ∧
                           entered difficulty useMedian (i + k) w0 c) as Hnext.
    { intros srt Hloop Hsrt c. rewrite (IH (S i) srt Hloop c), Hsrt. split.
      - intros [[?|He]|(k & w0 & Hk & He)]; [by left|right..].
        + exists 0%nat, w. by rewrite Nat.add_0_r.
        + exists (S k), w0. split; [done|]. by replace (i + S k)%nat with (S i + k)%nat by lia.
      - intros [?|(k & w0 & Hk & He)]; [by left; left|].
        destruct k as [|k]; simpl in Hk.
        + injection Hk as <-. rewrite Nat.add_0_r in He. by left; right.
        + right. exists k, w0. split; [done|].
          by replace (S i + k)%nat with (i + S k)%nat by lia. }
    destruct (skipped i w) eqn:Hskip.
    { intros Hloop. apply (Hnext sortable Hloop). intros c. split; [by left|].
      intros [?|(Hs & _)]; [done|congruence]. }
    destruct (GetBlockHash (StartHeight w)) as [blH|e] eqn:Hhash; [|done].
    destruct (GetBlockHeader_SBits blH) as [sbits|e] eqn:Hhdr; [|done].
    destruct (NewAmount _) as [f|e] eqn:Hfee; [|done].
    destruct (f =? 0) eqn:Hz.
    + apply Z.eqb_eq in Hz. subst f.
      intros Hloop. apply (Hnext sortable Hloop). intros c. split; [by left|].
      intros [?|(_ & blH' & _ & _ & Hf & Hne & _)]; [done|].
      unfold windowFee in Hf. rewrite Hfee in Hf. injection Hf as Hf. congruence.
    + apply Z.eqb_neq in Hz.
      intros Hloop. apply (Hnext _ Hloop). intros c. rewrite elem_of_app, list_elem_of_singleton.
      split.
      * intros [?| ->]; [by left|]. right. split; [done|]. exists blH. by repeat split.
      * intros [?|(_ & blH' & Hh & Hs & Hf & _ & Hd)]; [by left|]. right.
        rewrite Hhash in Hh. injection Hh as <-. rewrite Hhdr in Hs. injection Hs as Hs.
        unfold windowFee in Hf. rewrite Hfee in Hf. injection Hf as Hf.
        destruct c as [cd ce cf]. simpl in *. by subst.
Qed.

Lemma windowsLoop_returns (difficulty : Z) (useMedian : bool)
    (windows : list FeeInfoWindow) (i : nat) (sortable : list diffPeriodFee) :
  (∃ out, windowsLoop difficulty useMedian i windows sortable = Returns out) ↔
  ∀ k w, windows !! k = Some w → readable useMedian (i + k) w.
Proof.
  revert i sortable. induction windows as [|w rest IH]; intros i sortable; cbn [windowsLoop].
  - split; [|by eauto]. intros _ k w Hk. by rewrite lookup_nil in Hk.
  - assert (∀ srt, readable useMedian i w →
              ((∃ out, windowsLoop difficulty useMedian (S i) rest srt = Returns out) ↔
               ∀ k w0, (w :: rest) !! k = Some w0 → readable useMedian (i + k) w0)) as Hnext.
    { intros srt Hw. rewrite (IH (S i) srt). split.
      - intros Hall [|k] w0 Hk; simpl in Hk.
        + injection Hk as <-. by rewrite Nat.add_0_r.
        + replace (i + S k)%nat with (S i + k)%nat by lia. by apply Hall.
      - intros Hall k w0 Hk. replace (S i + k)%nat with (i + S k)%nat by lia.
        by apply Hall. }
    assert (¬ readable useMedian i w →
            ¬ ∀ k w0, (w :: rest) !! k = Some w0 → readable useMedian (i + k) w0) as Hbad.
    { intros Hn Hall. apply Hn. specialize (Hall 0%nat w eq_refl).
      by rewrite Nat.add_0_r in Hall. }
    unfold readable, windowFee in *.
    destruct (skipped i w) eqn:Hskip; [apply Hnext; by left|].
    destruct (GetBlockHash (StartHeight w)) as [blH|e] eqn:Hhash.
    2: split; [by intros [? ?]|]; intros Hall; exfalso; apply Hbad; [|done];
         intros [?|(? & ? & ? & ? & _)]; done.
    destruct (GetBlockHeader_SBits blH) as [sbits|e] eqn:Hhdr.
    2: split; [by intros [? ?]|]; intros Hall; exfalso; apply Hbad; [|done];
         intros [?|(b & ? & ? & Hb & Hs & _)]; [done|];
         injection Hb as <-; by rewrite Hhdr in Hs.
    destruct (NewAmount _) as [f|e] eqn:Hfee.
    2: split; [by intros [? ?]|]; intros Hall; exfalso; apply Hbad; [|done];
         intros [?|(? & ? & ? & _ & _ & ?)]; done.
    destruct (f =? 0); apply Hnext; right; by exists blH, sbits, f.
Qed.

Lemma wrap64_small (z : Z) : - 2 ^ 63 ≤ z < 2 ^ 63 → wrap64 z = z.
Proof. intros Hz. unfold wrap64. rewrite Z.mod_small; lia. Qed.

Lemma blocksLoop_sum (useMedian : bool) (blocks : list FeeInfoBlock) (fs : list Z)
    (sum : Z) :
  Forall2 (λ b f, blockFee useMedian b = Returns f) blocks fs →
  Forall (λ f, 0 ≤ f) fs → 0 ≤ sum → sum + sumZ fs < 2 ^ 63 →
  blocksLoop useMedian blocks sum = Returns (sum + sumZ fs).
Proof.
  intros Hfs. revert sum. induction Hfs as [|b f blocks fs Hb _ IH]; intros sum Hnn Hs Hlt.
  - simpl. f_equal. lia.
  - apply Forall_cons in Hnn as [Hf Hnn]. cbn [blocksLoop sumZ] in *.
    unfold blockFee in Hb. rewrite Hb.
    assert (0 ≤ sumZ fs) as Hsum.
    { clear -Hnn. induction Hnn as [|x l Hx _ IHl]; simpl; lia. }
    rewrite wrap64_small by lia. rewrite IH by (done || lia). f_equal. lia.
Qed.

Lemma sumZ_replicate (n : nat) (f : Z) : sumZ (replicate n f) = Z.of_nat n * f.
Proof. induction n as [|n IH]; [done|]. cbn [replicate sumZ]. rewrite IH. lia. Qed.

(** X13.  [findClosestFeeWindows] returns the fee of a window whose stake
    difficulty is closest to the given one.  Whenever it returns a fee, then
    either the fee is zero and no window of the reply was entered in the
    list (each was skipped as the unfilled first window or had a zero fee);
    or the fee is not zero, it is the fee of a window that was entered, and
    no entered window has a smaller absolute difference between its
    difficulty and the given one.  This holds for any sort that leaves its
    argument permuted and in ascending order. *)
Theorem findClosestFeeWindows_closest (difficulty : Z) (useMedian : bool)
    (info : TicketFeeInfoResult) (f : Z) :
  (∀ l, Sort l ≡ₚ l) →
  (∀ l, StronglySorted ascending (Sort l)) →
  TicketFeeInfo (Some zeroUint32) (Some 20) = Returns info →
  findClosestFeeWindows difficulty useMedian = Returns f →
  (f = 0 ∧
   ∀ k w c, FeeInfoWindows info !! k = Some w →
            ¬ entered difficulty useMedian k w c) ∨
  (f ≠ 0 ∧
   ∃ k w c,
     FeeInfoWindows info !! k = Some w ∧
     entered difficulty useMedian k w c ∧
     fee c = f ∧
     ∀ k' w' c', FeeInfoWindows info !! k' = Some w' →
                 entered difficulty useMedian k' w' c' →
                 difference c ≤ difference c').
Proof.
  intros Hperm Hsorted Hinfo. unfold findClosestFeeWindows.
  change (wrap32 windowsToConsider) with 20. rewrite Hinfo.
  destruct (length (FeeInfoWindows info) =? 0)%nat; [done|].
  destruct (windowsLoop _ _ _ _ _) as [sortable|e] eqn:Hloop; [|done].
  pose proof (windowsLoop_entered _ _ _ _ _ _ Hloop) as Hin.
  assert (∀ c, c ∈ Sort sortable ↔
               ∃ k w, FeeInfoWindows info !! k = Some w ∧
                      entered difficulty useMedian k w c) as Hin'.
  { intros c. rewrite (Hperm sortable), Hin. split.
    - intros [Hnil|?]; [by apply elem_of_nil in Hnil|done].
    - by right. }
  specialize (Hsorted sortable). destruct (Sort sortable) as [|closest sorted].
  - intros [= <-]. left. split; [done|]. intros k w c Hk He.
    assert (c ∈ @nil diffPeriodFee) as Hc by (apply Hin'; eauto).
    by apply elem_of_nil in Hc.
  - intros [= <-]. right.
    destruct (proj1 (Hin' closest)) as (k & w & Hk & He); [left|].
    split; [by destruct He as (_ & ? & _ & _ & _ & ? & _)|].
    exists k, w, closest. split; [done|]. split; [done|]. split; [done|].
    intros k' w' c' Hk' He'.
    assert (c' ∈ closest :: sorted) as Hc' by (apply Hin'; eauto).
    apply StronglySorted_inv in Hsorted as [_ Hall].
    apply elem_of_cons in Hc' as [->|Hc']; [unfold ascending; lia|].
    by apply (proj1 (Forall_forall _ _) Hall).
Qed.

(** X14.  When [findClosestFeeWindows] fails.  It returns a fee exactly when
    the fee-info request succeeds, its reply holds at least one window, and
    every window can be read: it is the first window and is not full, or its
    block hash, its block header and its fee are all obtained.  So one
    window whose block cannot be fetched makes the whole estimate fail, also
    when that window's fee is zero and would not have counted. *)
Theorem findClosestFeeWindows_returns_iff (difficulty : Z) (useMedian : bool) :
  (∃ f, findClosestFeeWindows difficulty useMedian = Returns f) ↔
  ∃ info,
    TicketFeeInfo (Some zeroUint32) (Some 20) = Returns info ∧
    FeeInfoWindows info ≠ [] ∧
    ∀ k w, FeeInfoWindows info !! k = Some w → readable useMedian k w.
Proof.
  unfold findClosestFeeWindows. change (wrap32 windowsToConsider) with 20.
  destruct (TicketFeeInfo (Some zeroUint32) (Some 20)) as [info|e].
  2:{ split; [by intros [? ?]|by intros (? & ? & _)]. }
  pose proof (windowsLoop_returns difficulty useMedian (FeeInfoWindows info) 0 []) as Hr.
  destruct (FeeInfoWindows info) as [|w0 ws] eqn:Hws.
  { split; [by intros [? ?]|]. intros (info' & [= <-] & Hne & _). by rewrite Hws in Hne. }
  rewrite <- Hws in *. assert (FeeInfoWindows info ≠ []) as Hne by (by rewrite Hws).
  replace (length (FeeInfoWindows info) =? 0)%nat with false
    by (rewrite Hws; done).
  split.
  - intros [f Hf]. exists info. split; [done|]. split; [done|]. apply Hr.
    destruct (windowsLoop _ _ _ _ _) as [out|e]; [by eexists|done].
  - intros (info' & [= <-] & _ & Hall). apply Hr in Hall as [out ->].
    destruct (Sort out); by eexists.
Qed.

Lemma wrap64_range (z : Z) : - 2 ^ 63 ≤ wrap64 z < 2 ^ 63.
Proof. unfold wrap64. pose proof (Z.mod_pos_bound (z + 2 ^ 63) (2 ^ 64)). lia. Qed.

(** X15.  The difference entered for a window.  When the window's difficulty
    and the given one differ by less than 2^63, as any two amounts that are
    not negative do, the difference is the absolute value of their
    difference.  In every case it is negative only when the int64
    subtraction gives the least int64, whose negation overflows; such a
    window would sort before all others. *)
Theorem absDiff_is_absolute_value (windowDiffAmt difficulty : Z) :
  (- 2 ^ 63 < windowDiffAmt - difficulty < 2 ^ 63 →
     absDiff windowDiffAmt difficulty = Z.abs (windowDiffAmt - difficulty)) ∧
  (0 ≤ windowDiffAmt < 2 ^ 63 → 0 ≤ difficulty < 2 ^ 63 →
     absDiff windowDiffAmt difficulty = Z.abs (windowDiffAmt - difficulty)) ∧
  (absDiff windowDiffAmt difficulty < 0 ↔
     wrap64 (windowDiffAmt - difficulty) = - 2 ^ 63).
Proof.
  assert (- 2 ^ 63 < windowDiffAmt - difficulty < 2 ^ 63 →
          absDiff windowDiffAmt difficulty = Z.abs (windowDiffAmt - difficulty)) as Habs.
  { intros Hr. unfold absDiff. rewrite wrap64_small by lia.
    destruct (windowDiffAmt - difficulty <? 0) eqn:Hneg.
    - apply Z.ltb_lt in Hneg. rewrite wrap64_small by lia. lia.
    - apply Z.ltb_ge in Hneg. lia. }
  split; [done|]. split; [intros; apply Habs; lia|].
  unfold absDiff. pose proof (wrap64_range (windowDiffAmt - difficulty)) as Hr.
  set (x := wrap64 (windowDiffAmt - difficulty)) in *.
  destruct (x <? 0) eqn:Hneg.
  - apply Z.ltb_lt in Hneg. destruct (decide (x = - 2 ^ 63)) as [->|Hne].
    + split; [done|]. intros _. by vm_compute.
    + rewrite wrap64_small by lia. lia.
  - apply Z.ltb_ge in Hneg. lia.
Qed.

(** X16.  The mean of [findTicketFeeBlocks].  When the request succeeds, every
    block statistic converts to a non-negative amount and their sum fits an
    int64, and [BlocksToAvg] is positive, the result is that sum divided,
    rounding down, by [BlocksToAvg]: by the configured number of blocks, not
    by the number of blocks in the reply.  In particular [BlocksToAvg]
    blocks with the same fee average to that fee. *)
Theorem findTicketFeeBlocks_mean (useMedian : bool) (info : TicketFeeInfoResult)
    (fs : list Z) :
  TicketFeeInfo (Some (wrap32 BlocksToAvg)) None = Returns info →
  Forall2 (λ b f, blockFee useMedian b = Returns f) (FeeInfoBlocks info) fs →
  Forall (λ f, 0 ≤ f) fs →
  sumZ fs < 2 ^ 63 →
  0 < BlocksToAvg →
  findTicketFeeBlocks useMedian = Some (Returns (sumZ fs `div` BlocksToAvg)) ∧
  (∀ f, fs = replicate (Z.to_nat BlocksToAvg) f →
        findTicketFeeBlocks useMedian = Some (Returns f)).
Proof.
  intros Hinfo Hfs Hnn Hlt Hn.
  assert (0 ≤ sumZ fs) as Hsum.
  { clear -Hnn. induction Hnn as [|x l Hx _ IHl]; simpl; lia. }
  assert (findTicketFeeBlocks useMedian = Some (Returns (sumZ fs `div` BlocksToAvg))) as Hres.
  { unfold findTicketFeeBlocks. rewrite Hinfo.
    rewrite (blocksLoop_sum useMedian _ fs 0 Hfs Hnn) by (done || lia).
    replace (BlocksToAvg =? 0) with false by (symmetry; apply Z.eqb_neq; lia).
    rewrite Z.add_0_l, Z.quot_div_nonneg by lia.
    rewrite wrap64_small; [done|].
    assert (0 ≤ sumZ fs `div` BlocksToAvg) by (apply Z.div_pos; lia).
    assert (sumZ fs `div` BlocksToAvg ≤ sumZ fs) by (apply Z.div_le_upper_bound; nia).
    lia. }
  split; [done|]. intros f ->. rewrite Hres. do 2 f_equal.
  rewrite sumZ_replicate, Z2Nat.id by lia. rewrite Z.mul_comm. apply Z.div_mul. lia.
Qed.

(** X17.  With [BlocksToAvg] zero, [findTicketFeeBlocks] never returns a fee:
    it returns the error of the request or of the first statistic that does
    not convert, and when every conversion succeeds (also when the reply
    holds no block at all) it panics dividing by zero. *)
Theorem findTicketFeeBlocks_zero_blocks (useMedian : bool) :
  BlocksToAvg = 0 →
  (∀ f, findTicketFeeBlocks useMedian ≠ Some (Returns f)) ∧
  (∀ info,
     TicketFeeInfo (Some 0) None = Returns info →
     Forall (λ b, ∃ f, blockFee useMedian b = Returns f) (FeeInfoBlocks info) →
     findTicketFeeBlocks useMedian = None).
Proof.
  intros Hz. unfold findTicketFeeBlocks. rewrite Hz. change (wrap32 0) with 0.
  split.
  - intros f. destruct (TicketFeeInfo (Some 0) None) as [info|e]; [|done].
    by destruct (blocksLoop useMedian (FeeInfoBlocks info) 0).
  - intros info -> Hall.
    assert (∀ sum, ∃ total, blocksLoop useMedian (FeeInfoBlocks info) sum = Returns total)
      as Hloop.
    { induction Hall as [|b bs [f Hb] _ IH]; intros sum; simpl; [by eexists|].
      unfold blockFee in Hb. rewrite Hb. apply IH. }
    by destruct (Hloop 0) as [total ->].
Qed.

End Purchaser.

(** *** The choice of the sort *)

Section Sorts.

Context {Float Err BlockHash : Type}.
Context (NewAmount : Float → result Err Z).
Context (errNotEnoughWindows : Err).
Context (GetBlockHash : Z → result Err BlockHash).
Context (GetBlockHeader_SBits : BlockHash → result Err Z).
Context (TicketFeeInfo : option Z → option Z → result Err (@TicketFeeInfoResult Float)).
Context (zeroUint32 StakeDiffWindowSize : Z).

(** X18.  sort.Sort is not stable, and the result does not depend on it as
    long as windows at the same distance have the same fee.  For any two
    sorts that leave their argument permuted and in ascending order: if any
    two entered windows with equal differences have equal fees (as when no
    two differences are equal), [findClosestFeeWindows] returns the same
    with both. *)
Theorem findClosestFeeWindows_any_sort (Sort1 Sort2 : list diffPeriodFee → list diffPeriodFee)
    (difficulty : Z) (useMedian : bool) (info : TicketFeeInfoResult) :
  (∀ l, Sort1 l ≡ₚ l) → (∀ l, StronglySorted ascending (Sort1 l)) →
  (∀ l, Sort2 l ≡ₚ l) → (∀ l, StronglySorted ascending (Sort2 l)) →
  TicketFeeInfo (Some zeroUint32) (Some 20) = Returns info →
  (∀ k1 w1 c1 k2 w2 c2,
     FeeInfoWindows info !! k1 = Some w1 →
     entered NewAmount GetBlockHash GetBlockHeader_SBits StakeDiffWindowSize
       difficulty useMedian k1 w1 c1 →
     FeeInfoWindows info !! k2 = Some w2 →
     entered NewAmount GetBlockHash GetBlockHeader_SBits StakeDiffWindowSize
       difficulty useMedian k2 w2 c2 →
     difference c1 = difference c2 → fee c1 = fee c2) →
  findClosestFeeWindows NewAmount errNotEnoughWindows GetBlockHash GetBlockHeader_SBits
    TicketFeeInfo zeroUint32 StakeDiffWindowSize Sort1 difficulty useMedian
  = findClosestFeeWindows NewAmount errNotEnoughWindows GetBlockHash GetBlockHeader_SBits
      TicketFeeInfo zeroUint32 StakeDiffWindowSize Sort2 difficulty useMedian.
Proof.
  intros Hp1 Hs1 Hp2 Hs2 Hinfo Hties. unfold findClosestFeeWindows.
  change (wrap32 windowsToConsider) with 20. rewrite Hinfo.
  destruct (length (FeeInfoWindows info) =? 0)%nat; [done|].
  destruct (windowsLoop _ _ _ _ _ _ _ _ _) as [sortable|e] eqn:Hloop; [|done].
  pose proof (windowsLoop_entered _ _ _ _ _ _ _ _ _ _ Hloop) as Hin.
  assert (∀ c, c ∈ sortable →
               ∃ k w, FeeInfoWindows info !! k = Some w ∧
                      entered NewAmount GetBlockHash GetBlockHeader_SBits
                        StakeDiffWindowSize difficulty useMedian k w c) as Hent.
  { intros c Hc. apply Hin in Hc as [Hnil|?]; [by apply elem_of_nil in Hnil|done]. }
  specialize (Hp1 sortable). specialize (Hp2 sortable).
  specialize (Hs1 sortable). specialize (Hs2 sortable).
  destruct (Sort1 sortable) as [|c1 l1], (Sort2 sortable) as [|c2 l2].
  - done.
  - exfalso. rewrite <- Hp1 in Hp2. by apply Permutation_nil_r in Hp2.
  - exfalso. rewrite <- Hp2 in Hp1. by apply Permutation_nil_r in Hp1.
  - f_equal.
    assert (c1 ∈ c2 :: l2) as H12 by (rewrite Hp2, <- Hp1; left).
    assert (c2 ∈ c1 :: l1) as H21 by (rewrite Hp1, <- Hp2; left).
    assert (difference c1 = difference c2) as Hd.
    { apply StronglySorted_inv in Hs1 as [_ Hall1].
      apply StronglySorted_inv in Hs2 as [_ Hall2].
      apply elem_of_cons in H12 as [->|H12]; [done|].
      apply elem_of_cons in H21 as [->|H21]; [done|].
      pose proof (proj1 (Forall_forall _ _) Hall1 c2 H21) as Ha.
      pose proof (proj1 (Forall_forall _ _) Hall2 c1 H12) as Hb.
      unfold ascending in *. lia. }
    destruct (Hent c1) as (k1 & w1 & Hk1 & He1); [rewrite <- Hp1; left|].
    destruct (Hent c2) as (k2 & w2 & Hk2 & He2); [rewrite <- Hp2; left|].
    by apply (Hties k1 w1 c1 k2 w2 c2).
Qed.

End Sorts.

(** *** A worked estimate

    Floats are integers and convert to themselves unless negative; the block
    at height [h] has hash [h] and stake difficulty [h]; the server reports
    an unfilled first window and two full ones; a stake difficulty window
    has 144 blocks. *)

Definition exNewAmount (f : Z) : result string Z :=
  if f <? 0 then Fails "negative"%string else Returns f.

Definition exInfo : @TicketFeeInfoResult Z :=
  mkTicketFeeInfoResult
    [mkFeeInfoBlock 4 4; mkFeeInfoBlock 6 6]
    [mkFeeInfoWindow 432 442 5 5; mkFeeInfoWindow 288 432 7 7;
     mkFeeInfoWindow 144 288 9 9].

Definition exTicketFeeInfo (blocks windows : option Z)
  : result string (@TicketFeeInfoResult Z) := Returns exInfo.

#[local] Instance ascending_dec (a b : diffPeriodFee) : Decision (ascending a b) :=
  Z_le_dec (difference a) (difference b).

#[local] Instance ascending_total : Total ascending.
Proof. intros a b. unfold ascending. lia. Qed.

#[local] Instance ascending_trans : Transitive ascending.
Proof. intros a b c. unfold ascending. lia. Qed.

Definition exSort : list diffPeriodFee → list diffPeriodFee := merge_sort ascending.

(** Another sort, which may order ties differently. *)
Definition exSort' (l : list diffPeriodFee) : list diffPeriodFee :=
  merge_sort ascending (reverse l).

Example closest_window :
  findClosestFeeWindows exNewAmount "no windows"%string (λ h, Returns h)
    (λ h : Z, Returns h) exTicketFeeInfo 0 144 exSort 200 false
  = Returns 9.
Proof. vm_compute; reflexivity. Qed.

Lemma findClosestFeeWindows_closest_witness :
  ∃ k w c,
    FeeInfoWindows exInfo !! k = Some w ∧
    entered exNewAmount (λ h, Returns h) (λ h : Z, Returns h) 144 200 false k w c ∧
    fee c = 9.
Proof.
  destruct (findClosestFeeWindows_closest exNewAmount "no windows"%string
              (λ h, Returns h) (λ h : Z, Returns h) exTicketFeeInfo 0 144 exSort
              200 false exInfo 9) as [[H0 _]|(_ & k & w & c & Hk & He & Hf & _)].
  - intros l. apply merge_sort_Permutation.
  - intros l. apply StronglySorted_merge_sort; apply _.
  - reflexivity.
  - vm_compute; reflexivity.
  - discriminate H0.
  - exists k, w, c. split; [exact Hk|]. split; [exact He|exact Hf].
Defined.

Lemma findTicketFeeBlocks_mean_witness :
  findTicketFeeBlocks exNewAmount exTicketFeeInfo 2 false = Some (Returns 5).
Proof.
  destruct (findTicketFeeBlocks_mean exNewAmount exTicketFeeInfo 2 false exInfo [4; 6])
    as (Hmean & _).
  - reflexivity.
  - repeat constructor.
  - repeat constructor; lia.
  - reflexivity.
  - lia.
  - exact Hmean.
Defined.

Lemma findTicketFeeBlocks_zero_blocks_witness :
  findTicketFeeBlocks exNewAmount exTicketFeeInfo 0 false = None.
Proof.
  destruct (findTicketFeeBlocks_zero_blocks exNewAmount exTicketFeeInfo 0 false)
    as (_ & Hpanic).
  - reflexivity.
  - apply (Hpanic exInfo); [reflexivity|].
    repeat constructor; by eexists.
Defined.

Lemma absDiff_is_absolute_value_witness :
  absDiff 144 200 = 56 ∧ absDiff (- 2 ^ 63) 0 = - 2 ^ 63.
Proof.
  destruct (absDiff_is_absolute_value 144 200) as (Habs & _).
  split; [rewrite Habs; [reflexivity|lia]|].
  vm_compute; reflexivity.
Defined.

Lemma findClosestFeeWindows_any_sort_witness :
  findClosestFeeWindows exNewAmount "no windows"%string (λ h, Returns h)
    (λ h : Z, Returns h) exTicketFeeInfo 0 144 exSort 200 false
  = findClosestFeeWindows exNewAmount "no windows"%string (λ h, Returns h)
      (λ h : Z, Returns h) exTicketFeeInfo 0 144 exSort' 200 false.
Proof.
  apply (findClosestFeeWindows_any_sort exNewAmount "no windows"%string
           (λ h, Returns h) (λ h : Z, Returns h) exTicketFeeInfo 0 144
           exSort exSort' 200 false exInfo).
  - intros l. apply merge_sort_Permutation.
  - intros l. apply StronglySorted_merge_sort; apply _.
  - intros l. unfold exSort'. rewrite merge_sort_Permutation. apply reverse_Permutation.
  - intros l. apply StronglySorted_merge_sort; apply _.
  - reflexivity.
  - assert (∀ k w c,
              FeeInfoWindows exInfo !! k = Some w →
              entered exNewAmount (λ h, Returns h) (λ h : Z, Returns h) 144 200 false k w c →
              (fee c = 7 ∧ difference c = 88) ∨ (fee c = 9 ∧ difference c = 56)) as Hcases.
    { intros k w c Hk (Hs & blH & Hh & Hb & Hf & _ & Hd).
      destruct k as [|[|[|k]]]; simpl in Hk; [| | |done]; injection Hk as <-.
      - discriminate Hs.
      - left. simpl in Hh. injection Hh as <-. injection Hb as Hb.
        rewrite <- Hb in Hd. injection Hf as Hf. split; [by symmetry|exact Hd].
      - right. simpl in Hh. injection Hh as <-. injection Hb as Hb.
        rewrite <- Hb in Hd. injection Hf as Hf. split; [by symmetry|exact Hd]. }
    intros k1 w1 c1 k2 w2 c2 Hk1 He1 Hk2 He2 Hd.
    destruct (Hcases k1 w1 c1 Hk1 He1) as [[-> D1]|[-> D1]],
             (Hcases k2 w2 c2 Hk2 He2) as [[-> D2]|[-> D2]]; congruence.
Defined.

End ticketbuyer.

(** * Errors of the JSON-RPC server (package legacyrpc) *)

Module legacyrpc.

(** The kinds of wallet errors [convertError] tells apart; [OtherKind]
    stands for every other kind. *)
Inductive Kind :=
| Bug | Encoding | Locked | Passphrase | NoPeers | InsufficientBalance
| OtherKind (k : N).

Section Errors.

(** [RPCErrorCode] is fnojson.RPCErrorCode and the six codes are the
    constants of that package; [ErrRPCInternal] is its variable of that
    name, an RPC error; [RPCError_Error] is the Error method of an RPC
    error. *)
Context {RPCErrorCode : Type}.
Context (ErrRPCWallet ErrRPCInvalidParameter ErrRPCWalletUnlockNeeded
         ErrRPCWalletPassphraseIncorrect ErrRPCClientNotConnected
         ErrRPCWalletInsufficientFunds : RPCErrorCode).

Record RPCError := mkRPCError {
  Code : RPCErrorCode;
  Message : string;
}.

Context (ErrRPCInternal : RPCError).
Context (RPCError_Error : RPCError → string).

(** A non-nil value of interface type error, by its dynamic type: an RPC
    error, a wallet error (with its kind and what its Error method returns),
    or anything else (with what its Error method returns). *)
Inductive error :=
| IsRPCError (e : RPCError)
| IsWalletError (kind : Kind) (text : string)
| IsOther (text : string).

(** [err.Error()]. *)
Definition Error_ (err : error) : string :=
  match err with
  | IsRPCError e => RPCError_Error e
  | IsWalletError _ text => text
  | IsOther text => text
  end.

Definition convertError (err : error) : RPCError :=
  match err with
  | IsRPCError e => e
  | _ =>
      let code := ErrRPCWallet in
      let code :=
        match err with
        | IsWalletError kind _ =>
            match kind with
            | Bug => Code ErrRPCInternal
            | Encoding => ErrRPCInvalidParameter
            | Locked => ErrRPCWalletUnlockNeeded
            | Passphrase => ErrRPCWalletPassphraseIncorrect
            | NoPeers => ErrRPCClientNotConnected
            | InsufficientBalance => ErrRPCWalletInsufficientFunds
            | OtherKind _ => code
            end
        | _ => code
        end in
      mkRPCError code (Error_ err)
  end.

Definition rpcError (code : RPCErrorCode) (err : error) : RPCError :=
  mkRPCError code (Error_ err).

(** X19.  [convertError] keeps what the error says and converts once.  An
    RPC error is returned as it is, so converting the result of a
    conversion changes nothing; any other error keeps its text as the
    message; and the code is the general wallet code unless the error is a
    wallet error of one of the six kinds told apart.  A wallet error and any
    other error with the same text convert alike when the kind is not one of
    the six. *)
Theorem convertError_once (err : error) :
  convertError (IsRPCError (convertError err)) = convertError err ∧
  (∀ e, err = IsRPCError e → convertError err = e) ∧
  ((∀ e, err ≠ IsRPCError e) → Message (convertError err) = Error_ err) ∧
  (∀ text, err = IsOther text → convertError err = rpcError ErrRPCWallet err) ∧
  (∀ k text, err = IsWalletError (OtherKind k) text →
     convertError err = convertError (IsOther text)).
Proof.
  split; [done|]. split; [by intros e ->|]. split.
  - intros Hne. destruct err as [e|kind text|text]; [by destruct (Hne e)|done..].
  - split; [by intros text ->|by intros k text ->].
Qed.

End Errors.

End legacyrpc.

(** * Address flags of the configuration (package cfgutil) *)

Module cfgutil.

Section AddressFlag.

(** [Addr] is fnoutil.Address, whose nil value is [None] below; [String_] is
    its String method and [DecodeAddress] is fnoutil.DecodeAddress, which
    returns an address ([inr]) or an error ([inl]). *)
Context {Addr Err : Type}.
Context (String_ : Addr → string).
Context (DecodeAddress : string → Err + Addr).

Record AddressFlag := mkAddressFlag { Address : option Addr }.

Definition NewAddressFlag (defaultValue : option Addr) : AddressFlag :=
  mkAddressFlag defaultValue.

Definition MarshalFlag (a : AddressFlag) : string * option Err :=
  match Address a with
  | Some address => (String_ address, None)
  | None => (EmptyString, None)
  end.

(** The flag after the call, and the error returned. *)
Definition UnmarshalFlag (a : AddressFlag) (addr : string) : AddressFlag * option Err :=
  if decide (addr = EmptyString) then (mkAddressFlag None, None)
  else
    match DecodeAddress addr with
    | inl err => (a, Some err)
    | inr address => (mkAddressFlag (Some address), None)
    end.

(** X20.  Marshalling a flag and unmarshalling the text into any flag gives
    the first flag back, without error, provided the address it holds (if
    any) prints as a text that is not empty and that decodes to it; the nil
    address always makes the round trip.  An address that printed as the
    empty text would come back as nil.  A text that does not decode leaves
    the flag as it was and returns the error of the decoder. *)
Theorem AddressFlag_round_trip (a b : AddressFlag) :
  (∀ address, Address a = Some address →
     String_ address ≠ EmptyString ∧ DecodeAddress (String_ address) = inr address) →
  UnmarshalFlag b (MarshalFlag a).1 = (a, None) ∧
  (MarshalFlag a).2 = None ∧
  UnmarshalFlag b (MarshalFlag (NewAddressFlag None)).1 = (NewAddressFlag None, None) ∧
  (∀ address, String_ address = EmptyString →
     UnmarshalFlag b (MarshalFlag (NewAddressFlag (Some address))).1
     = (NewAddressFlag None, None)) ∧
  (∀ addr err, addr ≠ EmptyString → DecodeAddress addr = inl err →
     UnmarshalFlag b addr = (b, Some err)).
Proof.
  intros Hok. unfold UnmarshalFlag, MarshalFlag. destruct a as [[address|]]; simpl.
  - destruct (Hok address eq_refl) as [Hne Hdec].
    split; [|split; [done|split; [done|split]]].
    + destruct (decide (String_ address = EmptyString)); [done|]. by rewrite Hdec.
    + intros address' ->. done.
    + intros addr err Hne' ->. by destruct (decide (addr = EmptyString)).
  - split; [done|]. split; [done|]. split; [done|]. split.
    + intros address' ->. done.
    + intros addr err Hne' ->. by destruct (decide (addr = EmptyString)).
Qed.

End AddressFlag.

(** *** A worked round trip: two addresses, printed as "Ds" and "Dc". *)

Definition exString (b : bool) : string := if b then "Ds"%string else "Dc"%string.

Definition exDecode (s : string) : string + bool :=
  if decide (s = "Ds"%string) then inr true
  else if decide (s = "Dc"%string) then inr false
  else inl "unknown address"%string.

Lemma AddressFlag_round_trip_witness :
  UnmarshalFlag exDecode (NewAddressFlag None)
    (MarshalFlag (Err := string) exString (NewAddressFlag (Some true))).1
  = (NewAddressFlag (Some true), None).
Proof.
  destruct (AddressFlag_round_trip exString exDecode (NewAddressFlag (Some true))
              (NewAddressFlag None)) as (Hrt & _).
  - intros address [= <-]. split; [discriminate|reflexivity].
  - exact Hrt.
Defined.

End cfgutil.
